(** * ModSynth: a shallow embedding of the synthesizer core

    The embedding follows [modsynth.hpp], [modsynth.cpp], [midi.hpp] and
    [midi.cpp].  Every module is a record of its public and private fields and
    its [update()] member is a function on that record.  Operations whose C++
    behaviour is undefined (indexing a container out of range, a modulo by
    zero) or that throw return [None].

    The C++ type [float] is kept abstract behind the interface [Scalar], so
    that each [update()] is transcribed once, operation by operation.  Two
    interpretations are given:
    - [RealScalar]: exact real arithmetic, used for the general theorems;
    - [Binary32]: IEEE-754 binary32 with round-to-nearest-even, built on
      [SpecFloat], used to replay concrete runs bit for bit. *)

From Stdlib Require Import ZArith List Bool Lia Lra Reals String Ascii.
From Stdlib Require Import Floats.SpecFloat.
Import ListNotations.

Set Implicit Arguments.

(** ** The scalar interface *)

Class Scalar (F : Type) : Type := {
  of_Z   : Z -> F;            (* integer literal, or integer-to-float conversion *)
  fadd   : F -> F -> F;
  fsub   : F -> F -> F;
  fmul   : F -> F -> F;
  fdiv   : F -> F -> F;
  fopp   : F -> F;
  fabs   : F -> F;            (* std::abs *)
  fltb   : F -> F -> bool;    (* x < y *)
  fleb   : F -> F -> bool;    (* x <= y *)
  feqb   : F -> F -> bool;    (* x == y *)
  ffloor : F -> F;            (* std::floor *)
  fceil  : F -> F;            (* std::ceil *)
  frint  : F -> F;            (* std::rint, default rounding mode *)
  ftrunc : F -> option Z;     (* float-to-integer conversion: truncation *)
  fexp2  : F -> F;            (* std::exp2 *)
  fsin   : F -> F;            (* std::sin *)
  fatan  : F -> F;            (* std::atan *)
  ftenth : F -> F             (* x * 0.1, the product taken in double *)
}.

(** The one law the control flow relies on: [1.0f] is nonzero and [0.0f] is
    zero, so a [bool] stored in a [float] is read back unchanged. *)
Class ScalarBool {F : Type} (S : Scalar F) : Prop := {
  feqb_one_zero  : feqb (of_Z 1) (of_Z 0) = false;
  feqb_zero_zero : feqb (of_Z 0) (of_Z 0) = true
}.

Declare Scope scalar_scope.
Delimit Scope scalar_scope with flt.
Infix "+" := fadd : scalar_scope.
Infix "-" := fsub : scalar_scope.
Infix "*" := fmul : scalar_scope.
Infix "/" := fdiv : scalar_scope.
Notation "- x" := (fopp x) : scalar_scope.
Infix "<?" := fltb : scalar_scope.
Infix "<=?" := fleb : scalar_scope.
Infix "=?" := feqb : scalar_scope.
Notation "x >? y" := (fltb y x) (only parsing) : scalar_scope.
Notation "x >=? y" := (fleb y x) (only parsing) : scalar_scope.

Section Conversions.
Context {F : Type} `{Scalar F}.

(** [bool] to [float]: [true] becomes 1, [false] becomes 0. *)
Definition of_bool (b : bool) : F := if b then of_Z 1 else of_Z 0.

(** [float] to [bool]: every value that compares unequal to zero is true. *)
Definition to_bool (x : F) : bool := negb (x =? of_Z 0)%flt.

(** [std::size_t] is a 64-bit unsigned integer. *)
Definition size_max : Z := 2 ^ 64.
Definition wrap_size (z : Z) : Z := z mod size_max.

(** Conversion of a [float] to [std::size_t]; undefined when the truncated
    value is not representable. *)
Definition to_size_t (x : F) : option Z :=
  match ftrunc x with
  | Some z => if ((0 <=? z) && (z <? size_max))%Z then Some z else None
  | None => None
  end.

(** [Module::dt = 1.0f / 48000.0f]. *)
Definition dt : F := (of_Z 1 / of_Z 48000)%flt.

(** [pi = 4.0f * std::atan(1.0f)]. *)
Definition pi : F := (of_Z 4 * fatan (of_Z 1))%flt.

(** The literal [0.5f]. *)
Definition half : F := (of_Z 1 / of_Z 2)%flt.
End Conversions.

Arguments dt : simpl never.
Arguments half : simpl never.
Arguments pi : simpl never.

(** ** Exact real arithmetic *)

Module RealScalar.
Local Open Scope R_scope.

Definition Rltb (x y : R) : bool := if Rlt_dec x y then true else false.
Definition Rleb (x y : R) : bool := if Rle_dec x y then true else false.
Definition Reqb (x y : R) : bool := if Req_dec_T x y then true else false.

Definition Rfloor (x : R) : R := IZR (Zfloor x).
Definition Rceil (x : R) : R := IZR (- Zfloor (- x)).

(** Round to the nearest integer, ties to the even one. *)
Definition Rrint (x : R) : R :=
  let k := Zfloor x in
  let d := x - IZR k in
  if Rlt_dec d (1 / 2) then IZR k
  else if Rlt_dec (1 / 2) d then IZR (k + 1)
  else if Z.even k then IZR k else IZR (k + 1).

(** Truncation toward zero. *)
Definition Rtrunc (x : R) : option Z :=
  Some (if Rle_dec 0 x then Zfloor x else (- Zfloor (- x))%Z).

Definition Rexp2 (x : R) : R := Rpower 2 x.

#[export] Instance scalar : Scalar R := {
  of_Z := IZR;
  fadd := Rplus; fsub := Rminus; fmul := Rmult; fdiv := Rdiv;
  fopp := Ropp; fabs := Rabs;
  fltb := Rltb; fleb := Rleb; feqb := Reqb;
  ffloor := Rfloor; fceil := Rceil; frint := Rrint; ftrunc := Rtrunc;
  fexp2 := Rexp2; fsin := sin; fatan := atan;
  ftenth := fun x => x * (1 / 10)
}.
End RealScalar.

(** ** IEEE-754 binary32 *)

Module Binary32.
Local Open Scope Z_scope.

Definition prec : Z := 24.
Definition emax : Z := 128.
Definition float32 : Type := spec_float.

Definition b32_of_Z (z : Z) : float32 := binary_normalize prec emax z 0 false.

(** An integer [z] with the sign [s] of the argument it was rounded from:
    a zero result keeps that sign. *)
Definition b32_signed_int (s : bool) (z : Z) : float32 :=
  if z =? 0 then S754_zero s else b32_of_Z z.

(** Quotient and remainder of the mantissa [m] by [2^k], for a finite
    float [m * 2^(-k)] with [k > 0]. *)
Definition split_mantissa (m : positive) (k : Z) : Z * Z :=
  (Z.shiftr (Zpos m) k, Z.land (Zpos m) (Z.ones k)).

Definition b32_floor (x : float32) : float32 :=
  match x with
  | S754_finite s m e =>
      if 0 <=? e then x
      else let '(q, r) := split_mantissa m (- e) in
           b32_signed_int s
             (if s then (if r =? 0 then - q else - (q + 1)) else q)
  | _ => x
  end.

Definition b32_ceil (x : float32) : float32 :=
  match x with
  | S754_finite s m e =>
      if 0 <=? e then x
      else let '(q, r) := split_mantissa m (- e) in
           b32_signed_int s
             (if s then - q else (if r =? 0 then q else q + 1))
  | _ => x
  end.

Definition b32_rint (x : float32) : float32 :=
  match x with
  | S754_finite s m e =>
      if 0 <=? e then x
      else let '(q, r) := split_mantissa m (- e) in
           let h := Z.shiftl 1 (- e - 1) in
           let n := match r ?= h with
                    | Lt => q
                    | Gt => q + 1
                    | Eq => if Z.even q then q else q + 1
                    end in
           b32_signed_int s (if s then - n else n)
  | _ => x
  end.

Definition b32_trunc (x : float32) : option Z :=
  match x with
  | S754_zero _ => Some 0
  | S754_finite s m e =>
      let a := if 0 <=? e then Z.shiftl (Zpos m) e else Z.shiftr (Zpos m) (- e) in
      Some (if s then - a else a)
  | _ => None
  end.

(** The functions of the C mathematical library are not part of the
  repository; the instance is parameterised by them. *)
Class Libm : Type := {
  exp2f : float32 -> float32;
  sinf  : float32 -> float32;
  atanf : float32 -> float32
}.

(** [x * 0.1]: [0.1] is a [double] literal, so [x] is widened, the
    product is rounded to binary64 and the result narrowed to binary32. *)
Definition b64_tenth : spec_float :=
  SFdiv 53 1024 (binary_normalize 53 1024 1 0 false)
                (binary_normalize 53 1024 10 0 false).

Definition b32_narrow (x : spec_float) : float32 :=
  match x with
  | S754_finite s m e => binary_round prec emax s m e
  | _ => x
  end.

Definition b32_tenth (x : float32) : float32 :=
  b32_narrow (SFmul 53 1024 x b64_tenth).

#[export] Instance scalar {libm : Libm} : Scalar float32 := {|
  of_Z := b32_of_Z;
  fadd := SFadd prec emax; fsub := SFsub prec emax;
  fmul := SFmul prec emax; fdiv := SFdiv prec emax;
  fopp := SFopp; fabs := SFabs;
  fltb := SFltb; fleb := SFleb; feqb := SFeqb;
  ffloor := b32_floor; fceil := b32_ceil; frint := b32_rint;
  ftrunc := b32_trunc;
  fexp2 := exp2f; fsin := sinf; fatan := atanf;
  ftenth := b32_tenth
|}.
End Binary32.

(** ** Registry and scheduler ([modsynth.cpp]) *)

(** A [Module *]: the address of a module object. *)
Definition ptr : Type := nat.

Module Registry.
(** [struct Registry { std::vector<Module *> modules; }] *)
Record t : Type := { modules : list ptr }.

(** The function-local static [the_registry] starts out empty. *)
Definition the_registry : t := {| modules := [] |}.
End Registry.

Module Module_.
Import Registry.

(** [Module::Module()]: [registry.modules.push_back(this)]. *)
Definition ctor (this : ptr) (registry : Registry.t) : Registry.t :=
  {| modules := modules registry ++ [this] |}.

(** [Module::~Module()]: [registry.modules.push_back(this)]. *)
Definition dtor (this : ptr) (registry : Registry.t) : Registry.t :=
  {| modules := modules registry ++ [this] |}.
End Module_.

Module Audio.
Section Audio.
Context {F : Type} `{Scalar F}.
(** The storage owned by the composing code, in which the modules live. *)
Variable Mem : Type.

(** The statics [Audio::left] and [Audio::right], next to the heap. *)
Record t : Type := { left : F; right : F; mem : Mem }.

(** Virtual dispatch of [mod->update()] on the object at an address. *)
Variable update : ptr -> t -> t.

Definition reset (a : t) : t :=
  {| left := of_Z 0; right := of_Z 0; mem := mem a |}.

(** [for (auto mod : registry->modules) mod->update();] *)
Definition update_all (registry : Registry.t) (a : t) : t :=
  fold_left (fun a module => update module a) (Registry.modules registry) a.

(** One iteration of the sample loop: the state after it and the stereo
    frame written to the stream. *)
Definition tick (registry : Registry.t) (a : t) : t * (F * F) :=
  let a := update_all registry (reset a) in
  (a, (ftenth (left a), ftenth (right a))).

Fixpoint frames (n : nat) (registry : Registry.t) (a : t) : t * list (F * F) :=
  match n with
  | O => (a, [])
  | S n' => let '(a, fr) := tick registry a in
            let '(a, rest) := frames n' registry a in
            (a, fr :: rest)
  end.

(** [Audio::callback]: [len / sizeof ptr] iterations, a pointer being
    eight bytes wide. *)
Definition callback (registry : Registry.t) (len : Z) (a : t) : t * list (F * F) :=
  frames (Z.to_nat (len / 8)) registry a.

(** The state after [n] ticks. *)
Definition run (n : nat) (registry : Registry.t) (a : t) : t :=
  fst (frames n registry a).
End Audio.
End Audio.

(** ** Wire and Speaker *)

Module Wire.
Section Wire.
Context {F : Type}.
Variable Mem : Type.

(** [const float &from] is a way to read a port of the heap, [float &to]
    a way to overwrite one. *)
Record t : Type := { from : Mem -> F; to : F -> Mem -> Mem }.

(** [to = from;] *)
Definition update (w : t) (m : Mem) : Mem := to w (from w m) m.
End Wire.
End Wire.

Module Speaker.
Section Speaker.
Context {F : Type} `{Scalar F}.
Record t : Type := { left_in : F; right_in : F }.

Definition ctor : t := {| left_in := of_Z 0; right_in := of_Z 0 |}.

(** [audio.left += left_in; audio.right += right_in;] on the two
    accumulators. *)
Definition update (s : t) (acc : F * F) : F * F :=
  (fst acc + left_in s, snd acc + right_in s)%flt.
End Speaker.
End Speaker.

(** ** VCO *)

Module VCO.
Section VCO.
Context {F : Type} `{Scalar F}.

Record t : Type := {
  frequency : F;
  sawtooth_out : F;
  sine_out : F;
  square_out : F;
  triangle_out : F
}.

(** [VCO(float frequency)], with the default member initialisers. *)
Definition ctor (frequency : F) : t := {|
  frequency := frequency;
  sawtooth_out := of_Z (-1);
  sine_out := of_Z 0;
  square_out := of_Z 1;
  triangle_out := of_Z 0
|}.

(** [VCO() = default]. *)
Definition default : t := ctor (of_Z 0).

(** The local [phase] of [VCO::update] after the wrap. *)
Definition next_phase (v : t) : F :=
  let phase := (sawtooth_out v * half - half)%flt in
  let phase := (phase + frequency v * dt)%flt in
  (phase - ffloor phase)%flt.

Definition update (v : t) : t :=
  let phase := next_phase v in
  {| frequency := frequency v;
     sawtooth_out := (phase * of_Z 2 - of_Z 1)%flt;
     sine_out := fsin (phase * of_Z 2 * pi)%flt;
     square_out := (frint phase * of_Z (-2) + of_Z 1)%flt;
     triangle_out := (fabs (phase - half) * of_Z 4 - of_Z 1)%flt |}.
End VCO.
End VCO.

(** ** Envelope *)

Module Envelope.
Inductive state_t : Type := ATTACK | DECAY | RELEASE.

Section Envelope.
Context {F : Type} `{Scalar F}.

Record t : Type := {
  gate_in : F;
  attack : F;
  decay : F;
  release : F;
  amplitude_out : F;
  state : state_t
}.

(** [Envelope(float attack, float decay, float release)].  The member
    [state] has no initialiser: its first value is whatever [state0] the
    storage holds. *)
Definition ctor (attack decay release : F) (state0 : state_t) : t := {|
  gate_in := of_Z 0;
  attack := attack; decay := decay; release := release;
  amplitude_out := of_Z 0;
  state := state0
|}.

(** The state after the gate test that opens [Envelope::update]. *)
Definition gated_state (e : t) : state_t :=
  if (gate_in e <=? of_Z 0)%flt then RELEASE
  else match state e with
       | RELEASE => ATTACK
       | s => s
       end.

Definition set (e : t) (amplitude : F) (st : state_t) : t := {|
  gate_in := gate_in e;
  attack := attack e; decay := decay e; release := release e;
  amplitude_out := amplitude;
  state := st
|}.

Definition update (e : t) : t :=
  match gated_state e with
  | ATTACK =>
      let a := (amplitude_out e + dt / attack e)%flt in
      if (a >=? of_Z 1)%flt then set e (of_Z 1) DECAY else set e a ATTACK
  | DECAY =>
      set e (amplitude_out e * fexp2 (- dt / decay e))%flt DECAY
  | RELEASE =>
      set e (amplitude_out e * fexp2 (- dt / release e))%flt RELEASE
  end.
End Envelope.
End Envelope.

(** ** Delay *)

Module Delay.
Section Delay.
Context {F : Type} `{Scalar F}.

(** The input member is called [in] in the source. *)
Record t : Type := {
  in_ : F;
  delay : F;
  out : F;
  buffer : list F          (* std::deque<float>, front first *)
}.

(** [Delay::Delay(float max_delay)]: the deque holds
    [size_t(std::ceil(max_delay / dt)) + 1] zeros. *)
Definition ctor (max_delay : F) : option t :=
  match to_size_t (fceil (max_delay / dt)%flt) with
  | Some n =>
      Some {| in_ := of_Z 0;
              delay := max_delay;
              out := of_Z 0;
              buffer := repeat (of_Z 0) (Z.to_nat (wrap_size (n + 1))) |}
  | None => None
  end.

(** [buffer.pop_back(); buffer.push_front(in);] *)
Definition shift (d : t) : option (list F) :=
  match buffer d with
  | [] => None
  | _ :: _ => Some (in_ d :: removelast (buffer d))
  end.

(** The two [if] statements that clamp [delay]. *)
Definition clamp (nsamples : Z) (delay : F) : F :=
  let delay := if (delay <? of_Z 0)%flt then of_Z 0 else delay in
  if (delay >? of_Z nsamples * dt)%flt then (of_Z nsamples * dt)%flt else delay.

(** The index [pos] and the two deque indices read by the interpolation. *)
Definition position (delay : F) : option Z := to_size_t (delay / dt)%flt.

(** The first half of [update()]: the deque is shifted and [delay] is
    clamped. *)
Definition clamped (d : t) : option t :=
  match shift d with
  | None => None
  | Some buf =>
      let nsamples := wrap_size (Z.of_nat (List.length buf) - 1) in
      Some {| in_ := in_ d;
              delay := clamp nsamples (delay d);
              out := out d;
              buffer := buf |}
  end.

(** The second half: the linear interpolation.  Reading a deque outside
    its bounds is undefined. *)
Definition interpolate (d : t) : option t :=
  match position (delay d) with
  | None => None
  | Some pos =>
      let fraction := (delay d / dt - of_Z pos)%flt in
      match nth_error (buffer d) (Z.to_nat pos),
            nth_error (buffer d) (Z.to_nat (wrap_size (pos + 1))) with
      | Some x, Some y =>
          Some {| in_ := in_ d;
                  delay := delay d;
                  out := (x * (of_Z 1 - fraction) + y * fraction)%flt;
                  buffer := buffer d |}
      | _, _ => None
      end
  end.

Definition update (d : t) : option t :=
  match clamped d with
  | None => None
  | Some d' => interpolate d'
  end.
End Delay.
End Delay.

(** ** Sequencer *)

Module Sequencer.
Local Open Scope string_scope.

(** The static table [base_notes]. *)
Definition base_notes : list (string * Z) :=
  [ ("Cb", -1); ("C", 0); ("C#", 1);
    ("Db", 1); ("D", 2); ("D#", 3);
    ("Eb", 3); ("E", 4); ("E#", 5);
    ("Fb", 4); ("F", 5); ("F#", 6);
    ("Gb", 6); ("G", 7); ("G#", 8);
    ("Ab", 8); ("A", 9); ("A#", 10);
    ("Bb", 10); ("B", 11); ("B#", 12) ]%Z.

(** [std::map::at]: the key must be present. *)
Fixpoint at_ (table : list (string * Z)) (key : string) : option Z :=
  match table with
  | [] => None
  | (k, v) :: rest => if String.eqb k key then Some v else at_ rest key
  end.

Definition is_digit (c : ascii) : bool :=
  ((48 <=? nat_of_ascii c) && (nat_of_ascii c <=? 57))%nat.

(** [note.find_first_of("0123456789")]; [None] stands for [npos]. *)
Fixpoint find_first_of_digit (s : string) : option nat :=
  match s with
  | EmptyString => None
  | String c rest =>
      if is_digit c then Some O else option_map S (find_first_of_digit rest)
  end.

Fixpoint leading_digits (s : string) (acc : Z) : Z :=
  match s with
  | EmptyString => acc
  | String c rest =>
      if is_digit c
      then leading_digits rest (10 * acc + (Z.of_nat (nat_of_ascii c) - 48))%Z
      else acc
  end.

(** [std::stoi] on a string that starts with a digit: the leading digits
    are read and the rest is ignored; a value above [INT_MAX] throws. *)
Definition stoi (s : string) : option Z :=
  let v := leading_digits s 0 in
  if (v <=? 2 ^ 31 - 1)%Z then Some v else None.

(** The base note and the octave of one token. *)
Definition parse (note : string) : option (Z * Z) :=
  match find_first_of_digit note with
  | None => None
  | Some octave_pos =>
      match at_ base_notes (substring 0 octave_pos note),
            stoi (substring octave_pos (String.length note - octave_pos) note) with
      | Some base_note, Some octave => Some (base_note, octave)
      | _, _ => None
      end
  end.

Section Sequencer.
Context {F : Type} `{Scalar F}.

Record t : Type := {
  clock_in : F;
  frequencies : list F;
  frequency_out : F;
  gate_out : F;
  index : Z                (* std::size_t *)
}.

(** [440.0f * std::exp2((base_note - 9) / 12.0f + octave - 4)] *)
Definition note_frequency (base_note octave : Z) : F :=
  (of_Z 440 * fexp2 (of_Z (base_note - 9) / of_Z 12 + of_Z octave - of_Z 4))%flt.

(** The loop of the constructor; an unknown spelling throws. *)
Fixpoint parse_all (notes : list string) : option (list F) :=
  match notes with
  | [] => Some []
  | note :: rest =>
      match parse note, parse_all rest with
      | Some (base_note, octave), Some fs =>
          Some (note_frequency base_note octave :: fs)
      | _, _ => None
      end
  end.

(** [Sequencer::Sequencer].  The outputs [frequency_out] and [gate_out]
    have no initialiser: they start as whatever the storage holds. *)
Definition ctor (notes : list string) (frequency_out0 gate_out0 : F) : option t :=
  match parse_all notes with
  | Some fs =>
      Some {| clock_in := of_Z 0;
              frequencies := fs;
              frequency_out := frequency_out0;
              gate_out := gate_out0;
              index := wrap_size (Z.of_nat (List.length fs) - 1) |}
  | None => None
  end.

(** The index after the rising-edge test; the remainder by an empty
    vector's size is undefined. *)
Definition next_index (s : t) : option Z :=
  if ((clock_in s >? of_Z 0)%flt && negb (to_bool (gate_out s)))%bool
  then if (Z.of_nat (List.length (frequencies s)) =? 0)%Z then None
       else Some (wrap_size (index s + 1) mod Z.of_nat (List.length (frequencies s)))%Z
  else Some (index s).

Definition update (s : t) : option t :=
  match next_index s with
  | None => None
  | Some i =>
      match nth_error (frequencies s) (Z.to_nat i) with
      | None => None
      | Some f =>
          Some {| clock_in := clock_in s;
                  frequencies := frequencies s;
                  frequency_out := f;
                  gate_out := of_bool (clock_in s >? of_Z 0)%flt;
                  index := i |}
      end
  end.

(** The clock input is written from outside, by a [Wire] or by the
    [update()] of a composite. *)
Definition set_clock_in (s : t) (clock : F) : t :=
  {| clock_in := clock;
     frequencies := frequencies s;
     frequency_out := frequency_out s;
     gate_out := gate_out s;
     index := index s |}.

(** One tick per clock sample: the sample is written to [clock_in], then
    [update()] runs. *)
Fixpoint run (s : t) (clocks : list F) : option t :=
  match clocks with
  | [] => Some s
  | clock :: rest =>
      match update (set_clock_in s clock) with
      | None => None
      | Some s' => run s' rest
      end
  end.
End Sequencer.
End Sequencer.

(** ** MIDI adapter ([midi.hpp], [midi.cpp]) *)

Module MIDI.
(** The events of [snd_seq_event_t] the adapter looks at: the type tag with
    the fields of [data.note] or [data.control] it reads.  Channels, notes
    and velocities are [unsigned char], controller numbers [unsigned int]
    and controller values [int]. *)
Inductive snd_seq_event_t : Type :=
| SND_SEQ_EVENT_NOTEON (channel note velocity : Z)
| SND_SEQ_EVENT_NOTEOFF (channel note velocity : Z)
| SND_SEQ_EVENT_KEYPRESS (channel note velocity : Z)
| SND_SEQ_EVENT_CHANPRESS (channel value : Z)
| SND_SEQ_EVENT_PITCHBEND (channel value : Z)
| SND_SEQ_EVENT_CONTROLLER (channel param value : Z)
| SND_SEQ_EVENT_OTHER.

(** [std::bitset<128>] as the integer whose bit [i] says whether note [i]
    is held. *)
Definition bitset : Type := Z.

Definition test (notes : bitset) (pos : Z) : bool := Z.testbit notes pos.
Definition none (notes : bitset) : bool := (notes =? 0)%Z.

(** [set] and [reset] throw [std::out_of_range] for a position past the
    last bit. *)
Definition set (notes : bitset) (pos : Z) : option bitset :=
  if ((0 <=? pos) && (pos <? 128))%Z then Some (Z.setbit notes pos) else None.
Definition reset (notes : bitset) (pos : Z) : option bitset :=
  if ((0 <=? pos) && (pos <? 128))%Z then Some (Z.clearbit notes pos) else None.

(** Replacement of the element at an index of an array. *)
Fixpoint store {A : Type} (l : list A) (i : nat) (x : A) : option (list A) :=
  match l, i with
  | [], _ => None
  | _ :: rest, O => Some (x :: rest)
  | y :: rest, S i' => option_map (cons y) (store rest i' x)
  end.

Section MIDI.
Context {F : Type} `{Scalar F}.

Record Channel : Type := {
  frequency : F;
  velocity : F;
  release_velocity : F;
  gate : F;
  aftertouch : F;
  pitch_bend : F;
  parameter : list F;      (* float parameter[128] *)
  notes : bitset
}.

(** [struct MIDI]: the array [channels[16]]. *)
Record t : Type := { channels : list Channel }.

(** A channel as the constructor leaves it: the [float] members are not
    initialised and keep the values of [c0]; the bitset is empty. *)
Definition fresh_channel (c0 : Channel) : Channel := {|
  frequency := frequency c0; velocity := velocity c0;
  release_velocity := release_velocity c0; gate := gate c0;
  aftertouch := aftertouch c0; pitch_bend := pitch_bend c0;
  parameter := parameter c0; notes := 0%Z
|}.

Definition ctor (storage : list Channel) : t :=
  {| channels := map fresh_channel storage |}.

(** [440.0f * std::exp2((note - 69.0f) / 12.0f)] *)
Definition note_to_frequency (note : Z) : F :=
  (of_Z 440 * fexp2 ((of_Z note - of_Z 69) / of_Z 12))%flt.

(** The loop [for (uint8_t note = 128; note--;)]: [n] is the number of
    notes still to test, from [n - 1] downwards. *)
Fixpoint highest_below (n : nat) (notes : bitset) : F :=
  match n with
  | O => of_Z 0
  | S n' =>
      if test notes (Z.of_nat n') then note_to_frequency (Z.of_nat n')
      else highest_below n' notes
  end.

Definition highest_note_frequency (notes : bitset) : F :=
  highest_below 128 notes.

(** The body shared by a note-on of velocity zero and a note-off. *)
Definition note_off (ch : Channel) (note : Z) : option Channel :=
  match reset (notes ch) note with
  | None => None
  | Some ns =>
      Some (if none ns
            then {| frequency := frequency ch; velocity := velocity ch;
                    release_velocity := velocity ch; gate := of_Z 0;
                    aftertouch := aftertouch ch; pitch_bend := pitch_bend ch;
                    parameter := parameter ch; notes := ns |}
            else {| frequency := highest_note_frequency ns; velocity := velocity ch;
                    release_velocity := release_velocity ch; gate := gate ch;
                    aftertouch := aftertouch ch; pitch_bend := pitch_bend ch;
                    parameter := parameter ch; notes := ns |})
  end.

Definition note_on (ch : Channel) (note vel : Z) : option Channel :=
  if (vel =? 0)%Z then note_off ch note
  else
    let v := if none (notes ch) then (of_Z vel / of_Z 127)%flt else velocity ch in
    match set (notes ch) note with
    | None => None
    | Some ns =>
        Some {| frequency := highest_note_frequency ns; velocity := v;
                release_velocity := release_velocity ch; gate := of_Z 1;
                aftertouch := aftertouch ch; pitch_bend := pitch_bend ch;
                parameter := parameter ch; notes := ns |}
    end.

Definition set_aftertouch (ch : Channel) (a : F) : Channel :=
  {| frequency := frequency ch; velocity := velocity ch;
     release_velocity := release_velocity ch; gate := gate ch;
     aftertouch := a; pitch_bend := pitch_bend ch;
     parameter := parameter ch; notes := notes ch |}.

(** [auto frequency = event->data.note.note; if (ch.frequency == frequency)] *)
Definition keypress (ch : Channel) (note vel : Z) : Channel :=
  let frequency_ := note in
  if (frequency ch =? of_Z frequency_)%flt
  then set_aftertouch ch (of_Z vel / of_Z 127)%flt
  else ch.

Definition pitchbend (ch : Channel) (value : Z) : Channel :=
  {| frequency := frequency ch; velocity := velocity ch;
     release_velocity := release_velocity ch; gate := gate ch;
     aftertouch := aftertouch ch; pitch_bend := (of_Z value / of_Z 4096)%flt;
     parameter := parameter ch; notes := notes ch |}.

Definition controller (ch : Channel) (param value : Z) : option Channel :=
  if (param <? 0)%Z then None
  else
    match store (parameter ch) (Z.to_nat param) (of_Z value / of_Z 127)%flt with
    | None => None
    | Some ps =>
        Some {| frequency := frequency ch; velocity := velocity ch;
                release_velocity := release_velocity ch; gate := gate ch;
                aftertouch := aftertouch ch; pitch_bend := pitch_bend ch;
                parameter := ps; notes := notes ch |}
    end.

(** [auto &ch = channels[channel]; ...]: the handler runs on the channel
    and its result is written back in place. *)
Definition on_channel (m : t) (channel : Z) (f : Channel -> option Channel) : option t :=
  if (channel <? 0)%Z then None
  else
    match nth_error (channels m) (Z.to_nat channel) with
    | None => None
    | Some ch =>
        match f ch with
        | None => None
        | Some ch' =>
            option_map (fun cs => {| channels := cs |})
                       (store (channels m) (Z.to_nat channel) ch')
        end
    end.

Definition process_event (m : t) (event : snd_seq_event_t) : option t :=
  match event with
  | SND_SEQ_EVENT_NOTEON channel note vel =>
      on_channel m channel (fun ch => note_on ch note vel)
  | SND_SEQ_EVENT_NOTEOFF channel note _ =>
      on_channel m channel (fun ch => note_off ch note)
  | SND_SEQ_EVENT_KEYPRESS channel note vel =>
      on_channel m channel (fun ch => Some (keypress ch note vel))
  | SND_SEQ_EVENT_CHANPRESS channel value =>
      on_channel m channel
        (fun ch => Some (set_aftertouch ch (of_Z value / of_Z 127)%flt))
  | SND_SEQ_EVENT_PITCHBEND channel value =>
      on_channel m channel (fun ch => Some (pitchbend ch value))
  | SND_SEQ_EVENT_CONTROLLER channel param value =>
      on_channel m channel (fun ch => controller ch param value)
  | SND_SEQ_EVENT_OTHER => Some m
  end.

(** [MIDI::update] on the events pending in the sequencer queue. *)
Fixpoint update (m : t) (pending : list snd_seq_event_t) : option t :=
  match pending with
  | [] => Some m
  | event :: rest =>
      match process_event m event with
      | None => None
      | Some m' => update m' rest
      end
  end.

(** The channel at an index, as [midi.channels[i]] reads it. *)
Definition channel_at (m : t) (i : Z) : option Channel :=
  if (i <? 0)%Z then None else nth_error (channels m) (Z.to_nat i).
End MIDI.
End MIDI.

(** ** A patch of two modules and a wire

    The composing code declares a producer [A] with an output port, a
    consumer [B] with an input port, and a [Wire] from the one to the other.
    [A] is any module: an object of type [SA] with an [update()] and an output
    member.  [B] reads its input port in its [update()]; what it read is kept
    in [b_seen]. *)

Module Patch.
Section Patch.
Context {F : Type} `{Scalar F}.
Variable SA : Type.
Variable a_update : SA -> SA.
Variable a_out : SA -> F.

Record mem : Type := { a : SA; b_in : F; b_seen : F }.

(** The heap of the patch together with the audio accumulators. *)
Definition machine : Type := @Audio.t F mem.

(** The addresses of the three objects. *)
Definition A : ptr := 0%nat.
Definition B : ptr := 1%nat.
Definition W : ptr := 2%nat.

(** [Wire w{a.out, b.in};] *)
Definition wire : Wire.t (F := F) mem := {|
  Wire.from := fun m => a_out (a m);
  Wire.to := fun v m => {| a := a m; b_in := v; b_seen := b_seen m |}
|}.

Definition update_mem (p : ptr) (m : mem) : mem :=
  match p with
  | 0%nat => {| a := a_update (a m); b_in := b_in m; b_seen := b_seen m |}
  | 1%nat => {| a := a m; b_in := b_in m; b_seen := b_in m |}
  | 2%nat => Wire.update wire m
  | _ => m
  end.

(** Dispatch of [update()] on the object at address [p]; none of the
    three objects is a [Speaker], so the accumulators are not touched. *)
Definition update (p : ptr) (s : machine) : machine :=
  {| Audio.left := Audio.left s;
     Audio.right := Audio.right s;
     Audio.mem := update_mem p (Audio.mem s) |}.

Definition registry (order : list ptr) : Registry.t :=
  {| Registry.modules := order |}.

(** The output of [A] after its [k]-th update: its value of tick [k];
    [k = 0] is the value it was constructed with. *)
Definition value (k : nat) (s : machine) : F :=
  a_out (Nat.iter k a_update (a (Audio.mem s))).

(** What [B] read from its input port in its update of tick [n]. *)
Definition seen (n : nat) (order : list ptr) (s : machine) : F :=
  b_seen (Audio.mem (Audio.run update n (registry order) s)).
End Patch.
End Patch.

(** ** The remaining modules of [modsynth.cpp] *)

(** [std::log2] and [std::asin], used by the filter and by the exponential
    slew only. *)
Class ScalarMath {F : Type} (S : Scalar F) : Type := {
  flog2 : F -> F;             (* std::log2 *)
  fasin : F -> F              (* std::asin *)
}.

Module RealMath.
Local Open Scope R_scope.

Definition Rlog2 (x : R) : R := ln x / ln 2.

#[export] Instance math : ScalarMath RealScalar.scalar := {
  flog2 := Rlog2;
  fasin := asin
}.
End RealMath.

Module Binary32Math.
Import Binary32.

Class LibmMore : Type := {
  log2f : float32 -> float32;
  asinf : float32 -> float32
}.

#[export] Instance math {libm : Libm} {more : LibmMore} : ScalarMath (@Binary32.scalar libm) := {|
  flog2 := log2f;
  fasin := asinf
|}.
End Binary32Math.

Section Min.
Context {F : Type} `{Scalar F}.

(** [std::min(a, b)]: [b] if [b < a], otherwise [a]. *)
Definition fmin (a b : F) : F := if (b <? a)%flt then b else a.
End Min.

Module VCA.
Section VCA.
Context {F : Type} `{Scalar F}.

Record t : Type := { audio_in : F; amplitude : F; audio_out : F }.

(** [VCA(float amplitude)]. *)
Definition ctor (amplitude : F) : t :=
  {| audio_in := of_Z 0; amplitude := amplitude; audio_out := of_Z 0 |}.

Definition update (v : t) : t :=
  {| audio_in := audio_in v;
     amplitude := amplitude v;
     audio_out := (audio_in v * amplitude v)%flt |}.
End VCA.
End VCA.

Module VCF.
Section VCF.
Context {F : Type} {S : Scalar F} {M : ScalarMath S}.

Record t : Type := {
  audio_in : F;
  cutoff : F;
  resonance : F;
  lowpass_out : F;
  bandpass_out : F;
  highpass_out : F
}.

(** [VCF(float cutoff, float resonance)]. *)
Definition ctor (cutoff resonance : F) : t :=
  {| audio_in := of_Z 0; cutoff := cutoff; resonance := resonance;
     lowpass_out := of_Z 0; bandpass_out := of_Z 0; highpass_out := of_Z 0 |}.

(** [2.0f * std::sin(std::min(pi * cutoff * dt, std::asin(0.5f)))] *)
Definition coefficient (v : t) : F :=
  (of_Z 2 * fsin (fmin (pi * cutoff v * dt) (fasin half)))%flt.

Definition update (v : t) : t :=
  let f := coefficient v in
  let q := (of_Z 1 / resonance v)%flt in
  let lowpass := (lowpass_out v + f * bandpass_out v)%flt in
  let highpass := (audio_in v - q * bandpass_out v - lowpass)%flt in
  let bandpass := (bandpass_out v + f * highpass)%flt in
  {| audio_in := audio_in v; cutoff := cutoff v; resonance := resonance v;
     lowpass_out := lowpass; bandpass_out := bandpass; highpass_out := highpass |}.
End VCF.
End VCF.

(** The clamp shared by the two slews: [delta] limited to [rate * dt] above
    and to [-rate * dt] below, tested in that order. *)
Section SlewLimit.
Context {F : Type} `{Scalar F}.

Definition slew_limit (rate delta : F) : F :=
  if (delta >? rate * dt)%flt then (rate * dt)%flt
  else if (delta <? - rate * dt)%flt then (- rate * dt)%flt
  else delta.
End SlewLimit.

Module LinearSlew.
Section LinearSlew.
Context {F : Type} `{Scalar F}.

(** The input member is called [in] in the source. *)
Record t : Type := { in_ : F; rate : F; out : F }.

(** [LinearSlew(float rate = 1, float initial = 0)]. *)
Definition ctor (rate initial : F) : t :=
  {| in_ := of_Z 0; rate := rate; out := initial |}.

Definition update (s : t) : t :=
  let delta := slew_limit (rate s) (in_ s - out s)%flt in
  {| in_ := in_ s; rate := rate s; out := (out s + delta)%flt |}.
End LinearSlew.
End LinearSlew.

Module ExponentialSlew.
Section ExponentialSlew.
Context {F : Type} {S : Scalar F} {M : ScalarMath S}.

Record t : Type := { in_ : F; rate : F; out : F }.

(** [ExponentialSlew(float rate = 1, float initial = 1)]. *)
Definition ctor (rate initial : F) : t :=
  {| in_ := of_Z 1; rate := rate; out := initial |}.

Definition update (s : t) : t :=
  let delta := slew_limit (rate s) (flog2 (in_ s / out s)%flt) in
  {| in_ := in_ s; rate := rate s; out := (out s * fexp2 delta)%flt |}.
End ExponentialSlew.
End ExponentialSlew.

(** ** A heap of speakers

    The composing code declares speakers only; the address of a speaker is
    its position in the heap. *)

Module Mixer.
Section Mixer.
Context {F : Type} `{Scalar F}.

Definition heap : Type := list (@Speaker.t F).
Definition machine : Type := @Audio.t F heap.

(** Dispatch of [update()] on the speaker at address [p]; an address that
    holds no speaker is not dispatched. *)
Definition update (p : ptr) (a : machine) : machine :=
  match nth_error (Audio.mem a) p with
  | Some s =>
      let acc := Speaker.update s (Audio.left a, Audio.right a) in
      {| Audio.left := fst acc; Audio.right := snd acc; Audio.mem := Audio.mem a |}
  | None => a
  end.
End Mixer.
End Mixer.

(** ** Driving a module over several ticks *)

Module DelayRun.
Section DelayRun.
Context {F : Type} `{Scalar F}.

(** The input port is written from outside. *)
Definition set_in (d : @Delay.t F) (x : F) : @Delay.t F :=
  {| Delay.in_ := x; Delay.delay := Delay.delay d;
     Delay.out := Delay.out d; Delay.buffer := Delay.buffer d |}.

(** One tick per input sample: the sample is written to [in], then
    [update()] runs. *)
Fixpoint run (d : @Delay.t F) (inputs : list F) : option (@Delay.t F) :=
  match inputs with
  | [] => Some d
  | x :: rest =>
      match Delay.update (set_in d x) with
      | None => None
      | Some d' => run d' rest
      end
  end.
End DelayRun.
End DelayRun.

Module EnvelopeRun.
Section EnvelopeRun.
Context {F : Type} `{Scalar F}.

(** The input port [gate_in] written from outside. *)
Definition set_gate_in (e : @Envelope.t F) (gate : F) : @Envelope.t F :=
  {| Envelope.gate_in := gate;
     Envelope.attack := Envelope.attack e;
     Envelope.decay := Envelope.decay e;
     Envelope.release := Envelope.release e;
     Envelope.amplitude_out := Envelope.amplitude_out e;
     Envelope.state := Envelope.state e |}.

(** One tick per gate sample: the sample is written to [gate_in], then
    [update()] runs. *)
Definition run (e : @Envelope.t F) (gates : list F) : @Envelope.t F :=
  fold_left (fun e gate => Envelope.update (set_gate_in e gate)) gates e.
End EnvelopeRun.
End EnvelopeRun.

(** * Vocabulary of the statements

    The notions the theorems are stated with, and the concrete objects they
    are tried on. *)

Module RealSpec.
Local Open Scope R_scope.

(** The part of a real number above its floor: its value modulo 1. *)
Definition wrap (x : R) : R := x - IZR (Zfloor x).
End RealSpec.

Module PatchSpec.
Import Patch.

Section PatchSpec.
Context {F : Type}.
Variable SA : Type.
Variable a_update : SA -> SA.
Variable a_out : SA -> F.

(** The heap after the modules of one tick ran in the given order. *)
Definition mem_tick (order : list ptr) (m : @Patch.mem F SA) : @Patch.mem F SA :=
  fold_left (fun m p => update_mem a_update a_out p m) order m.

(** The state of [A] after [k] of its updates. *)
Definition a_at (k : nat) (m : @Patch.mem F SA) : SA := Nat.iter k a_update (a m).
End PatchSpec.

(** A producer that counts its updates, in a patch that starts at zero. *)
Definition counting_patch : @Patch.machine R R :=
  {| Audio.left := 0%R; Audio.right := 0%R;
     Audio.mem := {| a := 0%R; b_in := 0%R; b_seen := 0%R |} |}.
End PatchSpec.

Module MIDISpec.
Import MIDI.


(** A channel of zeros, and the adapter constructed over sixteen of them. *)
Definition blank_channel : @MIDI.Channel R :=
  {| frequency := 0%R; velocity := 0%R; release_velocity := 0%R;
     gate := 0%R; aftertouch := 0%R; pitch_bend := 0%R;
     parameter := repeat 0%R 128; notes := 0%Z |}.

Definition fresh_midi : @MIDI.t R := MIDI.ctor (repeat blank_channel 16).

(** A channel on which note 69 is selected. *)
Definition channel_a440 : @MIDI.Channel R :=
  {| frequency := 440%R; velocity := 0%R; release_velocity := 0%R;
     gate := 1%R; aftertouch := 0%R; pitch_bend := 0%R;
     parameter := repeat 0%R 128; notes := Z.setbit 0 69 |}.
End MIDISpec.

Module VCOSpec.
Local Open Scope R_scope.

(** The phase a sawtooth value stands for: [sawtooth = 2 * phase - 1]. *)
Definition phase (v : @VCO.t R) : R := (VCO.sawtooth_out v + 1) / 2.
End VCOSpec.

Module EnvelopeSpec.
Local Open Scope R_scope.

(** The envelope of the example program, as constructed, with its gate
    raised, in the attack branch. *)
Definition example_envelope : @Envelope.t R :=
  {| Envelope.gate_in := 1;
     Envelope.attack := 1 / 100; Envelope.decay := 1; Envelope.release := 1 / 10;
     Envelope.amplitude_out := 0;
     Envelope.state := Envelope.RELEASE |}.
End EnvelopeSpec.

Module DelaySpec.
Import Delay.

(** The last valid index of the deque, [buffer.size() - 1]. *)
Definition nsamples (d : @Delay.t R) : Z := (Z.of_nat (List.length (buffer d)) - 1)%Z.

(** The deque as [update()] leaves it. *)
Definition shifted (d : @Delay.t R) : list R := in_ d :: removelast (buffer d).

(** The delay line that [Delay(1)], the default, constructs. *)
Definition one_second : @Delay.t R :=
  {| in_ := 0%R; delay := 1%R; out := 0%R; buffer := repeat 0%R (Z.to_nat 48001) |}.
End DelaySpec.

Module SequencerSpec.
Import Sequencer RealScalar.

Section SequencerSpec.
Context {F : Type} {S : Scalar F}.
Local Open Scope Z_scope.

(** The clock is high when it is above zero. *)
Definition high (clock : F) : bool := (clock >? of_Z 0)%flt.

(** The rising edges of a clock signal: the samples that are high while the
    cleaned gate of the tick before is low; [g] is the gate before the first
    sample. *)
Fixpoint rising_edges (g : bool) (clocks : list F) : nat :=
  match clocks with
  | [] => O
  | clock :: rest =>
      ((if high clock && negb g then 1 else 0) + rising_edges (high clock) rest)%nat
  end.

(** The number of entries, [frequencies.size()]. *)
Definition size (s : @Sequencer.t F) : Z := Z.of_nat (List.length (frequencies s)).

(** A sequencer whose index points into its vector. *)
Definition in_range (s : @Sequencer.t F) : Prop :=
  0 <= index s < size s /\ size s < size_max.
End SequencerSpec.

(** The sequencer of the example program's first four notes. *)
Definition four_notes : @Sequencer.t R :=
  {| clock_in := 0%R;
     frequencies :=
       [note_frequency 0 4; note_frequency 4 4;
        note_frequency 7 4; note_frequency 0 5];
     frequency_out := 0%R;
     gate_out := 0%R;
     index := 3 |}.
End SequencerSpec.

(** ** Vocabulary of the further properties *)

Module SchedulerSpec.
(** The modules at the addresses [ps], constructed one after the other. *)
Definition construct (ps : list ptr) (registry : Registry.t) : Registry.t :=
  fold_left (fun registry this => Module_.ctor this registry) ps registry.
End SchedulerSpec.

Module MixerSpec.
Import RealScalar.
Local Open Scope R_scope.



(** Two speakers, both registered. *)
Definition two_speakers : @Mixer.machine R :=
  {| Audio.left := 7; Audio.right := 7;
     Audio.mem := [ {| Speaker.left_in := 1; Speaker.right_in := 2 |};
                    {| Speaker.left_in := 3; Speaker.right_in := 4 |} ] |}.
End MixerSpec.

Module VCOTune.
Section VCOTune.
Context {F : Type}.


End VCOTune.
End VCOTune.

Module MIDIShape.
Import MIDI.
Local Open Scope Z_scope.

(** The channel an event addresses. *)
Definition event_channel (event : snd_seq_event_t) : option Z :=
  match event with
  | SND_SEQ_EVENT_NOTEON channel _ _
  | SND_SEQ_EVENT_NOTEOFF channel _ _
  | SND_SEQ_EVENT_KEYPRESS channel _ _
  | SND_SEQ_EVENT_CHANPRESS channel _
  | SND_SEQ_EVENT_PITCHBEND channel _
  | SND_SEQ_EVENT_CONTROLLER channel _ _ => Some channel
  | SND_SEQ_EVENT_OTHER => None
  end.

Definition below (n x : Z) : bool := (0 <=? x) && (x <? n).

(** The events whose indices fit the sixteen channels, the 128 bits of the
    note set and the 128 controller values.  A key pressure only reads its
    note number. *)
Definition fits (event : snd_seq_event_t) : bool :=
  match event with
  | SND_SEQ_EVENT_NOTEON channel note _
  | SND_SEQ_EVENT_NOTEOFF channel note _ => below 16 channel && below 128 note
  | SND_SEQ_EVENT_KEYPRESS channel _ _
  | SND_SEQ_EVENT_CHANPRESS channel _
  | SND_SEQ_EVENT_PITCHBEND channel _ => below 16 channel
  | SND_SEQ_EVENT_CONTROLLER channel param _ => below 16 channel && below 128 param
  | SND_SEQ_EVENT_OTHER => true
  end.

Section MIDIShape.
Context {F : Type} `{Scalar F}.

(** An adapter with its sixteen channels of 128 controller values each. *)
Definition shaped (m : @MIDI.t F) : Prop :=
  List.length (channels m) = 16%nat
  /\ Forall (fun ch => List.length (parameter ch) = 128%nat) (channels m).

(** The note set fits its 128 bits, and while it is not empty the gate is
    1 and the frequency is that of the highest note held. *)
Definition sounding (ch : @MIDI.Channel F) : Prop :=
  0 <= notes ch < 2 ^ 128
  /\ (notes ch <> 0 ->
      gate ch = of_Z 1
      /\ frequency ch = note_to_frequency (Z.log2 (notes ch))).
End MIDIShape.
End MIDIShape.

Module Fixtures.
Import RealScalar.
Local Open Scope R_scope.


End Fixtures.

(** * Theorems *)

Unset Implicit Arguments.

(** ** Scalars *)

Module ScalarFacts.
Import RealScalar.
Local Open Scope R_scope.

#[export] Instance real_bool : ScalarBool RealScalar.scalar.
Proof.
  split; cbn; unfold Reqb.
  - destruct (Req_dec_T 1 0); [lra | reflexivity].
  - destruct (Req_dec_T 0 0); [reflexivity | lra].
Qed.

Lemma binary32_bool (libm : Binary32.Libm) :
  ScalarBool (@Binary32.scalar libm).
Proof. split; reflexivity. Qed.

Lemma to_bool_of_bool {F : Type} {S : Scalar F} {SB : ScalarBool S} (b : bool) :
  to_bool (of_bool b) = b.
Proof.
  destruct b; unfold to_bool, of_bool;
    [rewrite feqb_one_zero | rewrite feqb_zero_zero]; reflexivity.
Qed.
End ScalarFacts.

(** ** Registry *)

Module RegistryFacts.
Import Registry.

(** C1. [Module::~Module] does not remove the module from the registry: it
    appends the address once more.  Whatever the registry held, the
    destroyed module occurs one more time than before, so it is still
    registered; for a module constructed and then destroyed the registry is
    [[this; this]] and the scheduler calls its [update()] twice per tick. *)
Theorem dtor_registers_again :
  forall (this : ptr) (registry : Registry.t),
    count_occ Nat.eq_dec (modules (Module_.dtor this registry)) this
      = S (count_occ Nat.eq_dec (modules registry) this)
    /\ In this (modules (Module_.dtor this registry))
    /\ modules (Module_.dtor this (Module_.ctor this the_registry)) = [this; this]
    /\ forall (F Mem : Type) (update : ptr -> @Audio.t F Mem -> @Audio.t F Mem) a,
         Audio.update_all update
           (Module_.dtor this (Module_.ctor this the_registry)) a
         = update this (update this a).
Proof.
  intros this registry. unfold Module_.dtor, Module_.ctor. cbn [modules].
  repeat split.
  - rewrite count_occ_app. cbn [count_occ].
    destruct (Nat.eq_dec this this) as [_|Hne]; [apply Nat.add_1_r | congruence].
  - apply in_or_app. right. left. reflexivity.
Qed.
End RegistryFacts.

(** ** Scheduler and registration order *)

Module AudioFacts.
Section AudioFacts.
Context {F : Type} `{Scalar F}.
Variable Mem : Type.
Variable update : ptr -> @Audio.t F Mem -> @Audio.t F Mem.

Lemma run_S (n : nat) (registry : Registry.t) (a : Audio.t Mem) :
  Audio.run update (S n) registry a
  = Audio.run update n registry (fst (Audio.tick update registry a)).
Proof.
  unfold Audio.run. cbn [Audio.frames].
  destruct (Audio.tick update registry a) as [a1 fr]. cbn [fst].
  destruct (Audio.frames update n registry a1). reflexivity.
Qed.

Lemma run_S_last (n : nat) (registry : Registry.t) (a : Audio.t Mem) :
  Audio.run update (S n) registry a
  = fst (Audio.tick update registry (Audio.run update n registry a)).
Proof.
  revert a. induction n as [|n IH]; intros a.
  - rewrite run_S. reflexivity.
  - rewrite run_S, IH, <- run_S. reflexivity.
Qed.

(** The callback writes one frame per eight bytes of [len]. *)
Lemma frames_length (n : nat) (registry : Registry.t) (a : Audio.t Mem) :
  List.length (snd (Audio.frames update n registry a)) = n.
Proof.
  revert a. induction n as [|n IH]; intros a; cbn [Audio.frames]; [reflexivity|].
  destruct (Audio.tick update registry a) as [a1 fr].
  specialize (IH a1). destruct (Audio.frames update n registry a1).
  cbn in *. congruence.
Qed.
End AudioFacts.
End AudioFacts.

Module PatchFacts.
Import Patch PatchSpec.

Section PatchFacts.
Context {F : Type} `{Scalar F}.
Variable SA : Type.
Variable a_update : SA -> SA.
Variable a_out : SA -> F.

Local Abbreviation mem := (@Patch.mem F SA).
Local Abbreviation machine := (@Patch.machine F SA).
Local Abbreviation mem_tick := (PatchSpec.mem_tick a_update a_out).
Local Abbreviation a_at := (PatchSpec.a_at a_update).

Lemma mem_update_all (order : list ptr) (s : machine) :
  Audio.mem (Audio.update_all (update a_update a_out) (registry order) s)
  = mem_tick order (Audio.mem s).
Proof.
  unfold Audio.update_all, mem_tick, registry. cbn [Registry.modules].
  revert s. induction order as [|p order IH]; intros s; [reflexivity|].
  cbn [fold_left]. rewrite IH. reflexivity.
Qed.

Lemma mem_run (n : nat) (order : list ptr) (s : machine) :
  Audio.mem (Audio.run (update a_update a_out) n (registry order) s)
  = Nat.iter n (mem_tick order) (Audio.mem s).
Proof.
  induction n as [|n IH]; [reflexivity|].
  rewrite AudioFacts.run_S_last. unfold Audio.tick. cbn [fst].
  rewrite mem_update_all. cbn [Audio.reset Audio.mem]. rewrite IH. reflexivity.
Qed.

Ltac ticks n :=
  induction n as [|n IH];
  [ reflexivity
  | change (Nat.iter (S (S n)) ?f ?x) with (f (Nat.iter (S n) f x));
    rewrite IH; try destruct n; reflexivity ].

Lemma ticks_A_W_B (n : nat) (m : mem) :
  Nat.iter (S n) (mem_tick [A; W; B]) m
  = {| a := a_at (S n) m;
       b_in := a_out (a_at (S n) m);
       b_seen := a_out (a_at (S n) m) |}.
Proof. ticks n. Qed.

Lemma ticks_A_B_W (n : nat) (m : mem) :
  Nat.iter (S n) (mem_tick [A; B; W]) m
  = {| a := a_at (S n) m;
       b_in := a_out (a_at (S n) m);
       b_seen := match n with O => b_in m | S _ => a_out (a_at n m) end |}.
Proof. ticks n. Qed.

Lemma ticks_B_A_W (n : nat) (m : mem) :
  Nat.iter (S n) (mem_tick [B; A; W]) m
  = {| a := a_at (S n) m;
       b_in := a_out (a_at (S n) m);
       b_seen := match n with O => b_in m | S _ => a_out (a_at n m) end |}.
Proof. ticks n. Qed.

Lemma ticks_W_A_B (n : nat) (m : mem) :
  Nat.iter (S n) (mem_tick [W; A; B]) m
  = {| a := a_at (S n) m;
       b_in := a_out (a_at n m);
       b_seen := a_out (a_at n m) |}.
Proof. ticks n. Qed.

Lemma ticks_W_B_A (n : nat) (m : mem) :
  Nat.iter (S n) (mem_tick [W; B; A]) m
  = {| a := a_at (S n) m;
       b_in := a_out (a_at n m);
       b_seen := a_out (a_at n m) |}.
Proof. ticks n. Qed.

Lemma ticks_B_W_A (n : nat) (m : mem) :
  Nat.iter (S n) (mem_tick [B; W; A]) m
  = {| a := a_at (S n) m;
       b_in := a_out (a_at n m);
       b_seen := match n with O => b_in m | S k => a_out (a_at k m) end |}.
Proof. ticks n. Qed.

(** C3, as amended.  [B] reads the value [A] produced in the same tick
    exactly when the registry holds [A], then the [Wire], then [B].  With
    the [Wire] after both modules, or before [A], [B] reads the value of
    the tick before; with [B], then the [Wire], then [A], it reads the
    value of two ticks before.  Where the [Wire] runs after [B], what [B]
    reads in the first tick is its input port as constructed. *)
Theorem registration_order :
  forall (s : machine) (n : nat),
    seen a_update a_out (S n) [A; W; B] s = value a_update a_out (S n) s
    /\ seen a_update a_out (S (S n)) [A; B; W] s = value a_update a_out (S n) s
    /\ seen a_update a_out (S (S n)) [B; A; W] s = value a_update a_out (S n) s
    /\ seen a_update a_out (S n) [W; A; B] s = value a_update a_out n s
    /\ seen a_update a_out (S n) [W; B; A] s = value a_update a_out n s
    /\ seen a_update a_out (S (S n)) [B; W; A] s = value a_update a_out n s.
Proof.
  intros s n. unfold seen, value. rewrite !mem_run.
  rewrite ticks_A_W_B, ticks_A_B_W, ticks_B_A_W, ticks_W_A_B, ticks_W_B_A, ticks_B_W_A.
  repeat split.
Qed.
End PatchFacts.

Import RealScalar.

(** C3, as stated, fails: with the [Wire] registered after both [A] and
    [B], what [B] reads in the second tick is the value [A] produced in the
    first tick, not the one of the second. *)
Lemma wire_last_is_one_tick_late :
  seen (fun x => x + 1)%R (fun x => x) 2 [A; B; W] counting_patch = 1%R
  /\ value (fun x => x + 1)%R (fun x => x) 2 counting_patch = 2%R
  /\ seen (fun x => x + 1)%R (fun x => x) 2 [A; B; W] counting_patch
     <> value (fun x => x + 1)%R (fun x => x) 2 counting_patch.
Proof.
  assert (Hs : seen (fun x => x + 1)%R (fun x => x) 2 [A; B; W] counting_patch = 1%R)
    by (cbv [seen counting_patch]; rewrite mem_run; cbn; lra).
  assert (Hv : value (fun x => x + 1)%R (fun x => x) 2 counting_patch = 2%R)
    by (cbv [value counting_patch]; cbn; lra).
  rewrite Hs, Hv. repeat split. lra.
Qed.
End PatchFacts.

(** ** MIDI adapter *)

Module MIDIFacts.
Import MIDI MIDISpec.

Section StoreFacts.
Context {A : Type}.

Lemma store_some (l : list A) (i : nat) (x y : A) :
  nth_error l i = Some y -> exists l', store l i x = Some l'.
Proof.
  revert i. induction l as [|z l IH]; intros [|i] Hi; cbn in *; try discriminate.
  - eexists. reflexivity.
  - destruct (IH i Hi) as [l' Hl']. rewrite Hl'. eexists. reflexivity.
Qed.

Lemma store_same (l l' : list A) (i : nat) (x : A) :
  store l i x = Some l' -> nth_error l' i = Some x.
Proof.
  revert i l'. induction l as [|z l IH]; intros [|i] l' Hs; cbn in *; try discriminate.
  - injection Hs as <-. reflexivity.
  - destruct (store l i x) as [t|] eqn:E; cbn in Hs; [|discriminate].
    injection Hs as <-. cbn. apply IH. exact E.
Qed.

Lemma store_other (l l' : list A) (i j : nat) (x : A) :
  store l i x = Some l' -> i <> j -> nth_error l' j = nth_error l j.
Proof.
  revert i j l'. induction l as [|z l IH]; intros [|i] j l' Hs Hij; cbn in *; try discriminate.
  - injection Hs as <-. destruct j; [congruence | reflexivity].
  - destruct (store l i x) as [t|] eqn:E; cbn in Hs; [|discriminate].
    injection Hs as <-. destruct j; [reflexivity|]. cbn. apply (IH i); [exact E | congruence].
Qed.
End StoreFacts.

Section Channels.
Context {F : Type} `{Scalar F}.
Local Abbreviation t := (@MIDI.t F).
Local Abbreviation Channel := (@MIDI.Channel F).


End Channels.

Section Notes.
Context {F : Type} `{Scalar F}.
Local Abbreviation t := (@MIDI.t F).
Local Abbreviation Channel := (@MIDI.Channel F).






(** Whichever note's release empties the channel, [release_velocity] becomes
    the velocity the channel captured, and the gate goes to 0; a release that
    leaves notes held changes neither. *)
Lemma note_off_release_velocity (ch ch' : Channel) (note : Z) :
  note_off ch note = Some ch' ->
  (none (notes ch') = true ->
   release_velocity ch' = velocity ch /\ gate ch' = of_Z 0)
  /\ (none (notes ch') = false ->
      release_velocity ch' = release_velocity ch /\ gate ch' = gate ch
      /\ frequency ch' = highest_note_frequency (notes ch')).
Proof.
  unfold note_off. destruct (reset (notes ch) note) as [ns|]; [|discriminate].
  intros Hch. injection Hch as <-.
  destruct (none ns) eqn:En; cbn [notes release_velocity gate frequency]; rewrite En;
    split; intros Hn; try discriminate; repeat split.
Qed.

End Notes.
End MIDIFacts.

(** ** Exact arithmetic *)

Module RealFacts.
Import RealScalar.
Export RealSpec.
Local Open Scope R_scope.

Lemma Rltb_true (x y : R) : Rltb x y = true <-> x < y.
Proof. unfold Rltb. destruct (Rlt_dec x y); split; (discriminate || lra || trivial). Qed.

Lemma Rltb_false (x y : R) : Rltb x y = false <-> y <= x.
Proof. unfold Rltb. destruct (Rlt_dec x y); split; (discriminate || lra || trivial). Qed.

Lemma Rleb_true (x y : R) : Rleb x y = true <-> x <= y.
Proof. unfold Rleb. destruct (Rle_dec x y); split; (discriminate || lra || trivial). Qed.

Lemma Rleb_false (x y : R) : Rleb x y = false <-> y < x.
Proof. unfold Rleb. destruct (Rle_dec x y); split; (discriminate || lra || trivial). Qed.

Lemma Reqb_true (x y : R) : Reqb x y = true <-> x = y.
Proof. unfold Reqb. destruct (Req_dec_T x y); split; (discriminate || lra || trivial). Qed.

Lemma Reqb_false (x y : R) : Reqb x y = false <-> x <> y.
Proof.
  unfold Reqb. destruct (Req_dec_T x y); split; trivial; try discriminate.
  intros Hne. contradiction.
Qed.

(** Case analysis on every comparison of the goal, innermost first. *)
Ltac no_test a :=
  lazymatch a with
  | context [Rltb _ _] => fail
  | context [Rleb _ _] => fail
  | context [Rle_dec _ _] => fail
  | context [Rlt_dec _ _] => fail
  | _ => idtac
  end.

Ltac real_cases :=
  repeat match goal with
  | |- context [Rltb ?a ?b] =>
      no_test a; no_test b;
      let E := fresh "E" in
      destruct (Rltb a b) eqn:E; [apply Rltb_true in E | apply Rltb_false in E]
  | |- context [Rleb ?a ?b] =>
      no_test a; no_test b;
      let E := fresh "E" in
      destruct (Rleb a b) eqn:E; [apply Rleb_true in E | apply Rleb_false in E]
  | |- context [Rle_dec ?a ?b] => no_test a; no_test b; destruct (Rle_dec a b)
  | |- context [Rlt_dec ?a ?b] => no_test a; no_test b; destruct (Rlt_dec a b)
  end.

(** The time step is one 48000th of a second. *)
Lemma dt_value : @dt R _ = 1 / 48000.
Proof. reflexivity. Qed.

Lemma dt_pos : 0 < @dt R _.
Proof. rewrite dt_value. lra. Qed.

Lemma half_value : @half R _ = 1 / 2.
Proof. reflexivity. Qed.

Lemma wrap_bound (x : R) : 0 <= wrap x < 1.
Proof. unfold wrap. pose proof (Zfloor_bound x). lra. Qed.

Lemma wrap_add_int (x : R) (k : Z) : wrap (x + IZR k) = wrap x.
Proof. unfold wrap. rewrite Zfloor_addz, plus_IZR. lra. Qed.



Lemma wrap_small (x : R) : 0 <= x < 1 -> wrap x = x.
Proof. intros Hx. unfold wrap. rewrite (Zfloor_eq 0 x) by lra. lra. Qed.

(** [std::rint] on a value of the unit interval. *)
Lemma Rrint_low (p : R) : 0 <= p <= 1 / 2 -> Rrint p = 0.
Proof.
  intros Hp. unfold Rrint. rewrite (Zfloor_eq 0 p) by lra.
  destruct (Rlt_dec (p - 0) (1 / 2)); [reflexivity|].
  destruct (Rlt_dec (1 / 2) (p - 0)); [lra | reflexivity].
Qed.

Lemma Rrint_high (p : R) : 1 / 2 < p < 1 -> Rrint p = 1.
Proof.
  intros Hp. unfold Rrint. rewrite (Zfloor_eq 0 p) by lra.
  destruct (Rlt_dec (p - 0) (1 / 2)); [lra|].
  destruct (Rlt_dec (1 / 2) (p - 0)); [reflexivity | lra].
Qed.

(** [std::exp2] of a negative argument lies strictly between 0 and 1. *)
Lemma ln_2_pos : 0 < ln 2.
Proof. pose proof ln_lt_2. lra. Qed.

Lemma Rexp2_pos (x : R) : 0 < Rexp2 x.
Proof. unfold Rexp2, Rpower. apply exp_pos. Qed.

Lemma Rexp2_neg (x : R) : x < 0 -> Rexp2 x < 1.
Proof.
  intros Hx. unfold Rexp2, Rpower. rewrite <- exp_0. apply exp_increasing.
  pose proof ln_2_pos. nra.
Qed.

Lemma Rexp2_0 : Rexp2 0 = 1.
Proof. unfold Rexp2. apply Rpower_O. lra. Qed.
End RealFacts.

(** ** Envelope *)

Module EnvelopeFacts.
Import RealScalar RealFacts Envelope.
Local Open Scope R_scope.

Lemma decay_step (amplitude time : R) :
  0 < time -> amplitude <= 1 -> amplitude * Rexp2 (- @dt R _ / time) <= 1.
Proof.
  intros Ht Ha.
  assert (Hneg : - @dt R _ / time < 0).
  { pose proof dt_pos as Hdt. unfold Rdiv.
    assert (0 < / time) by (apply Rinv_0_lt_compat; exact Ht). nra. }
  pose proof (Rexp2_pos (- dt / time)). pose proof (Rexp2_neg _ Hneg). nra.
Qed.

End EnvelopeFacts.

(** ** VCO *)

Module VCOFacts.
Import RealScalar RealFacts VCO VCOSpec.
Local Open Scope R_scope.

Lemma next_phase_wrap (v : @VCO.t R) :
  next_phase v = wrap (phase v + frequency v * dt).
Proof.
  unfold next_phase, phase. cbn. rewrite half_value. unfold Rfloor.
  match goal with
  | |- ?x - IZR (Zfloor ?x) = _ => change (x - IZR (Zfloor x)) with (wrap x)
  end.
  rewrite <- (wrap_add_int _ 1). f_equal. lra.
Qed.

Lemma next_phase_bound (v : @VCO.t R) : 0 <= next_phase v < 1.
Proof. rewrite next_phase_wrap. apply wrap_bound. Qed.







(** The first phase of an oscillator constructed with a frequency. *)
Lemma next_phase_ctor (f : R) : next_phase (ctor f) = wrap (f / 48000).
Proof.
  rewrite next_phase_wrap. unfold phase.
  change (sawtooth_out (ctor f)) with (-1). change (frequency (ctor f)) with f.
  rewrite dt_value. f_equal. lra.
Qed.

Lemma next_phase_24000 : next_phase (ctor 24000) = 1 / 2.
Proof.
  rewrite next_phase_ctor. replace (24000 / 48000) with (1 / 2) by lra.
  apply wrap_small. lra.
Qed.

Lemma next_phase_36000 : next_phase (ctor 36000) = 3 / 4.
Proof.
  rewrite next_phase_ctor. replace (36000 / 48000) with (3 / 4) by lra.
  apply wrap_small. lra.
Qed.

Lemma square_update (v : @VCO.t R) :
  square_out (update v) = Rrint (next_phase v) * -2 + 1.
Proof. reflexivity. Qed.

(** C8, as amended.  For the wrapped phase [p] of an update the square
    output is [+1] when [p <= 0.5] and [-1] when [p > 0.5]: at exactly
    [p = 0.5] the rounding goes to the even integer 0, which gives [+1]. *)
Theorem square_sign :
  forall v : @VCO.t R,
    (next_phase v <= 1 / 2 -> square_out (update v) = 1)
    /\ (1 / 2 < next_phase v -> square_out (update v) = -1).
Proof.
  intros v. pose proof (next_phase_bound v) as Hp. rewrite square_update. split; intros H.
  - rewrite Rrint_low by lra. lra.
  - rewrite Rrint_high by lra. lra.
Qed.

(** C8, as stated, fails at the tie: an oscillator constructed with the
    frequency 24000 Hz reaches the phase 0.5 with its first update, and its
    square output is [+1] there, not [-1]. *)
Lemma square_at_half :
  next_phase (ctor 24000) = 1 / 2
  /\ square_out (update (ctor 24000)) = 1
  /\ square_out (update (ctor 24000)) <> -1.
Proof.
  pose proof next_phase_24000 as Hp.
  assert (Hs : square_out (update (ctor 24000)) = 1).
  { rewrite square_update, Hp, Rrint_low by lra. lra. }
  rewrite Hs. repeat split; [exact Hp | lra].
Qed.
End VCOFacts.

(** ** Delay *)

Module DelayFacts.
Import RealScalar RealFacts Delay DelaySpec.
Local Open Scope R_scope.

Lemma length_removelast {A : Type} (l : list A) :
  l <> [] -> S (List.length (removelast l)) = List.length l.
Proof.
  induction l as [|x l IH]; intros Hl; [contradiction|].
  destruct l as [|y l]; [reflexivity|].
  change (removelast (x :: y :: l)) with (x :: removelast (y :: l)).
  cbn [List.length]. rewrite IH by discriminate. reflexivity.
Qed.

Lemma shift_some (d : @Delay.t R) :
  buffer d <> [] -> shift d = Some (shifted d).
Proof. unfold shift, shifted. destruct (buffer d); [contradiction | reflexivity]. Qed.

Lemma shifted_length (d : @Delay.t R) :
  buffer d <> [] -> List.length (shifted d) = List.length (buffer d).
Proof. intros Hd. unfold shifted. cbn [List.length]. apply length_removelast. exact Hd. Qed.

Lemma div_dt (x : R) : x / dt = x * 48000.
Proof. rewrite dt_value. field. Qed.

Lemma mul_dt (x : R) : x * dt = x / 48000.
Proof. rewrite dt_value. field. Qed.

Lemma clamp_value (n : Z) (x : R) :
  (0 <= n)%Z ->
  clamp n x = Rmin (Rmax x 0) (IZR n * dt) /\ 0 <= clamp n x <= IZR n * dt.
Proof.
  intros Hn. apply IZR_le in Hn. unfold clamp. cbn [fltb fmul of_Z scalar].
  rewrite !mul_dt. unfold Rmin, Rmax. real_cases; repeat split; lra.
Qed.

Lemma clamp_at_max (n : Z) (x : R) :
  (0 <= n)%Z -> IZR n * dt <= x -> clamp n x = IZR n * dt.
Proof.
  intros Hn Hx. destruct (clamp_value n x Hn) as [-> _].
  apply IZR_le in Hn. rewrite mul_dt in *. unfold Rmin, Rmax. real_cases; lra.
Qed.

Lemma clamp_below_max (n : Z) (x : R) :
  (0 < n)%Z -> x < IZR n * dt -> clamp n x < IZR n * dt.
Proof.
  intros Hn Hx. destruct (clamp_value n x (Z.lt_le_incl _ _ Hn)) as [-> _].
  apply IZR_lt in Hn. rewrite mul_dt in *. unfold Rmin, Rmax. real_cases; lra.
Qed.

(** The read position of a delay within the clamped range. *)
Lemma position_value (n : Z) (c : R) :
  (n < size_max)%Z -> 0 <= c <= IZR n * dt ->
  position c = Some (Zfloor (c / dt)) /\ (0 <= Zfloor (c / dt) <= n)%Z.
Proof.
  intros Hn Hc. rewrite mul_dt in Hc.
  assert (Hq : 0 <= c / dt <= IZR n) by (rewrite div_dt; lra).
  assert (Hz : (0 <= Zfloor (c / dt) <= n)%Z).
  { split; [apply Zfloor_lub; cbn; lra|].
    apply le_IZR. pose proof (Zfloor_bound (c / dt)). lra. }
  split; [|exact Hz].
  unfold position, to_size_t. cbn [ftrunc fdiv scalar]. unfold Rtrunc.
  destruct (Rle_dec 0 (c / dt)); [|lra].
  replace (0 <=? Zfloor (c / dt))%Z with true by (symmetry; apply Z.leb_le; lia).
  replace (Zfloor (c / dt) <? size_max)%Z with true by (symmetry; apply Z.ltb_lt; lia).
  reflexivity.
Qed.

Lemma position_at_max (n : Z) :
  (0 <= n < size_max)%Z -> position (IZR n * dt) = Some n.
Proof.
  intros Hn. assert (H0 : 0 <= IZR n) by (apply IZR_le; lia).
  destruct (position_value n (IZR n * dt)) as [-> _]; [lia | rewrite mul_dt; lra |].
  replace (IZR n * dt / dt) with (IZR n) by (rewrite dt_value; field).
  rewrite ZfloorZ. reflexivity.
Qed.

Lemma position_below_max (n : Z) (c : R) :
  (n < size_max)%Z -> 0 <= c < IZR n * dt -> (Zfloor (c / dt) < n)%Z.
Proof.
  intros Hn Hc. rewrite mul_dt in Hc. apply lt_IZR.
  pose proof (Zfloor_bound (c / dt)) as Hb. rewrite div_dt in *. lra.
Qed.

(** The first half of [update()] on a deque that is not empty and whose
    size fits [size_t]. *)
Lemma clamped_some (d : @Delay.t R) :
  buffer d <> [] -> (Z.of_nat (List.length (buffer d)) < size_max)%Z ->
  clamped d = Some {| in_ := in_ d;
                      delay := clamp (nsamples d) (delay d);
                      out := out d;
                      buffer := shifted d |}.
Proof.
  intros Hne Hsz. unfold clamped. rewrite (shift_some d Hne), (shifted_length d Hne).
  assert (Hlen : (0 < Z.of_nat (List.length (buffer d)))%Z).
  { destruct (buffer d); [contradiction | cbn [List.length]; lia]. }
  assert (Hw : wrap_size (Z.of_nat (List.length (buffer d)) - 1) = nsamples d).
  { unfold wrap_size, nsamples. apply Z.mod_small. lia. }
  cbv zeta. rewrite Hw. reflexivity.
Qed.


Lemma nsamples_nonneg (d : @Delay.t R) : buffer d <> [] -> (0 <= nsamples d)%Z.
Proof.
  intros Hne. unfold nsamples. destruct (buffer d); [contradiction | cbn [List.length]; lia].
Qed.

(** What [update()] does when the clamped delay is below the maximum: both
    reads are inside the deque and the output is the interpolation. *)
Lemma update_in_range (d : @Delay.t R) :
  buffer d <> [] -> (Z.of_nat (List.length (buffer d)) < size_max)%Z ->
  (0 < nsamples d)%Z -> delay d < IZR (nsamples d) * dt ->
  let c := clamp (nsamples d) (delay d) in
  let pos := Zfloor (c / dt) in
  exists x y,
    position c = Some pos
    /\ (0 <= pos /\ pos + 1 < Z.of_nat (List.length (shifted d)))%Z
    /\ nth_error (shifted d) (Z.to_nat pos) = Some x
    /\ nth_error (shifted d) (Z.to_nat (pos + 1)) = Some y
    /\ update d = Some {| in_ := in_ d; delay := c;
                          out := x * (1 - (c / dt - IZR pos)) + y * (c / dt - IZR pos);
                          buffer := shifted d |}.
Proof.
  intros Hne Hsz Hn Hlt c pos.
  assert (Hlen : Z.of_nat (List.length (shifted d)) = (nsamples d + 1)%Z)
    by (rewrite (shifted_length d Hne); unfold nsamples; lia).
  destruct (clamp_value (nsamples d) (delay d) (Z.lt_le_incl _ _ Hn)) as [_ Hc].
  pose proof (clamp_below_max (nsamples d) (delay d) Hn Hlt) as Hc'.
  fold c in Hc, Hc'.
  destruct (position_value (nsamples d) c) as [Hpos Hp]; [unfold nsamples; lia | lra |].
  assert (Hp' : (pos < nsamples d)%Z)
    by (apply position_below_max; [unfold nsamples; lia | lra]).
  fold pos in Hpos, Hp.
  destruct (nth_error (shifted d) (Z.to_nat pos)) as [x|] eqn:Ex;
    [|apply nth_error_None in Ex; lia].
  destruct (nth_error (shifted d) (Z.to_nat (pos + 1))) as [y|] eqn:Ey;
    [|apply nth_error_None in Ey; lia].
  exists x, y. repeat split; try assumption; try lia.
  unfold update. rewrite (clamped_some d Hne Hsz). unfold interpolate.
  cbn [delay buffer in_]. fold c. rewrite Hpos.
  replace (wrap_size (pos + 1)) with (pos + 1)%Z
    by (unfold wrap_size; rewrite Z.mod_small; unfold nsamples in *; lia).
  rewrite Ex, Ey. reflexivity.
Qed.

(** What it does when the clamp's upper bound applies: the second read is at
    the index [buffer.size()]. *)
Lemma update_at_max (d : @Delay.t R) :
  buffer d <> [] -> (Z.of_nat (List.length (buffer d)) < size_max)%Z ->
  IZR (nsamples d) * dt <= delay d ->
  clamp (nsamples d) (delay d) = IZR (nsamples d) * dt
  /\ position (IZR (nsamples d) * dt) = Some (nsamples d)
  /\ Z.to_nat (wrap_size (nsamples d + 1)) = List.length (shifted d)
  /\ nth_error (shifted d) (Z.to_nat (wrap_size (nsamples d + 1))) = None
  /\ update d = None.
Proof.
  intros Hne Hsz Hge. pose proof (nsamples_nonneg d Hne) as Hn.
  pose proof (clamp_at_max (nsamples d) (delay d) Hn Hge) as Hc.
  assert (Hpos : position (IZR (nsamples d) * dt) = Some (nsamples d))
    by (apply position_at_max; unfold nsamples in *; lia).
  assert (Hidx : Z.to_nat (wrap_size (nsamples d + 1)) = List.length (shifted d)).
  { rewrite (shifted_length d Hne). unfold wrap_size.
    rewrite Z.mod_small by (unfold nsamples in *; lia). unfold nsamples. lia. }
  assert (Hnone : nth_error (shifted d) (Z.to_nat (wrap_size (nsamples d + 1))) = None)
    by (apply nth_error_None; lia).
  repeat split; try assumption.
  unfold update. rewrite (clamped_some d Hne Hsz). unfold interpolate.
  cbn [delay buffer in_]. rewrite Hc, Hpos, Hnone.
  destruct (nth_error (shifted d) (Z.to_nat (nsamples d))); reflexivity.
Qed.


(** C4.  The requested delay is clamped and, below the upper bound, the
    output is the linear interpolation between [buffer[pos]] and
    [buffer[pos + 1]] with both indices inside the deque.  When the clamp's
    upper bound [(buffer.size() - 1) * dt] applies, [pos] is
    [buffer.size() - 1] and the second index is [buffer.size()]: the read is
    outside the deque and the update has no defined result. *)
Theorem interpolation_reads_past_the_end :
  forall d : @Delay.t R,
    buffer d <> [] -> (Z.of_nat (List.length (buffer d)) < size_max)%Z ->
    let n := nsamples d in
    let c := clamp n (delay d) in
    let pos := Zfloor (c / dt) in
    0 <= c <= IZR n * dt
    /\ ((0 < n)%Z -> delay d < IZR n * dt ->
        exists x y,
          position c = Some pos
          /\ (0 <= pos /\ pos + 1 < Z.of_nat (List.length (shifted d)))%Z
          /\ nth_error (shifted d) (Z.to_nat pos) = Some x
          /\ nth_error (shifted d) (Z.to_nat (pos + 1)) = Some y
          /\ update d = Some {| in_ := in_ d; delay := c;
                                out := x * (1 - (c / dt - IZR pos))
                                       + y * (c / dt - IZR pos);
                                buffer := shifted d |})
    /\ (IZR n * dt <= delay d ->
        c = IZR n * dt
        /\ position c = Some n
        /\ Z.to_nat (wrap_size (n + 1)) = List.length (shifted d)
        /\ nth_error (shifted d) (Z.to_nat (wrap_size (n + 1))) = None
        /\ update d = None).
Proof.
  intros d Hne Hsz n c pos. split; [|split].
  - apply (clamp_value n (delay d) (nsamples_nonneg d Hne)).
  - intros Hn Hlt. apply (update_in_range d Hne Hsz Hn Hlt).
  - intros Hge. destruct (update_at_max d Hne Hsz Hge) as (Hc & Hp & Hi & Hnone & Hu).
    unfold c, n. rewrite Hc. repeat split; assumption.
Qed.


Lemma ctor_one_second : Delay.ctor 1 = Some one_second.
Proof.
  unfold Delay.ctor, to_size_t. cbn [ftrunc fceil fdiv of_Z scalar].
  replace (1 / dt) with (IZR 48000) by (rewrite div_dt; lra).
  unfold Rceil. rewrite <- opp_IZR, ZfloorZ, Z.opp_involutive.
  unfold Rtrunc. destruct (Rle_dec 0 (IZR 48000)) as [_|Hn]; [|exfalso; apply Hn; lra].
  rewrite ZfloorZ. reflexivity.
Qed.

Lemma one_second_shape :
  buffer one_second <> []
  /\ (Z.of_nat (List.length (buffer one_second)) < size_max)%Z
  /\ nsamples one_second = 48000%Z.
Proof.
  unfold nsamples. cbn [buffer one_second]. rewrite repeat_length.
  repeat split; try (rewrite Z2Nat.id by lia; reflexivity).
  intros Hnil. apply (f_equal (@List.length R)) in Hnil.
  rewrite repeat_length in Hnil. cbn [List.length] in Hnil. lia.
Qed.
End DelayFacts.

(** ** Sequencer *)

Module SequencerFacts.
Import Sequencer ScalarFacts SequencerSpec.

Section Steps.
Context {F : Type} {S : Scalar F} {SB : ScalarBool S}.
Local Abbreviation t := (@Sequencer.t F).
Local Open Scope Z_scope.

Lemma update_step (s : t) :
  in_range s ->
  let i := if high (clock_in s) && negb (to_bool (gate_out s))
           then (index s + 1) mod size s else index s in
  exists f,
    nth_error (frequencies s) (Z.to_nat i) = Some f
    /\ 0 <= i < size s
    /\ update s = Some {| clock_in := clock_in s;
                          frequencies := frequencies s;
                          frequency_out := f;
                          gate_out := of_bool (high (clock_in s));
                          index := i |}.
Proof.
  intros [Hi Hn] i.
  assert (Hir : 0 <= i < size s).
  { unfold i. destruct (high (clock_in s) && negb (to_bool (gate_out s)))%bool;
      [apply Z.mod_pos_bound|]; lia. }
  destruct (nth_error (frequencies s) (Z.to_nat i)) as [f|] eqn:Ef;
    [|apply nth_error_None in Ef; unfold size in *; lia].
  exists f. repeat split; try lia.
  unfold update, next_index. fold (high (clock_in s)). fold (size s).
  destruct (high (clock_in s) && negb (to_bool (gate_out s)))%bool eqn:Edge.
  - replace (size s =? 0) with false by (symmetry; apply Z.eqb_neq; lia).
    unfold wrap_size. rewrite (Z.mod_small (index s + 1)) by lia.
    fold i. rewrite Ef. reflexivity.
  - fold i. rewrite Ef. reflexivity.
Qed.

(** After any clock signal the index has advanced by the number of rising
    edges, modulo the number of entries; the gate is the last clock sample
    compared with zero and the frequency is the entry at the index. *)
Lemma run_steps (clocks : list F) (s : t) :
  in_range s ->
  exists s',
    run s clocks = Some s'
    /\ in_range s'
    /\ frequencies s' = frequencies s
    /\ index s' = (index s + Z.of_nat (rising_edges (to_bool (gate_out s)) clocks)) mod size s
    /\ (clocks <> [] ->
        gate_out s' = of_bool (high (last clocks (of_Z 0)))
        /\ nth_error (frequencies s) (Z.to_nat (index s')) = Some (frequency_out s')).
Proof.
  revert s. induction clocks as [|clock rest IH]; intros s Hs.
  - exists s. cbn [run rising_edges].
    split; [reflexivity|]. split; [exact Hs|]. split; [reflexivity|].
    destruct Hs as [Hi Hn]. split.
    + change (Z.of_nat 0) with 0. rewrite Z.add_0_r, Z.mod_small by lia. reflexivity.
    + intros Hne. contradiction.
  - cbn [run rising_edges].
    destruct (update_step (set_clock_in s clock) Hs) as (f & Hf & Hir & Hu).
    cbn [clock_in gate_out index frequencies set_clock_in] in Hf, Hir, Hu.
    change (size (set_clock_in s clock)) with (size s) in Hf, Hir, Hu.
    rewrite Hu.
    match type of Hu with _ = Some ?x => set (s1 := x) in * end.
    assert (Hs1 : in_range s1) by (destruct Hs; split; [exact Hir | assumption]).
    destruct (IH s1 Hs1) as (s' & Hrun & Hs' & Hfr & Hidx & Hlast).
    exists s'. split; [exact Hrun|]. split; [exact Hs'|]. split; [exact Hfr|].
    cbn [gate_out index s1] in Hidx. change (size s1) with (size s) in Hidx.
    rewrite to_bool_of_bool in Hidx. destruct Hs as [Hi Hn]. split.
    + rewrite Hidx.
      destruct (high clock && negb (to_bool (gate_out s)))%bool.
      * rewrite Zplus_mod_idemp_l. f_equal; lia.
      * f_equal; lia.
    + intros _. destruct rest as [|clock' rest'].
      * cbn [run] in Hrun. injection Hrun as <-. cbn [last gate_out frequency_out index s1].
        split; [reflexivity | exact Hf].
      * destruct Hlast as [Hg Hfo]; [discriminate|].
        change (last (clock :: clock' :: rest') (of_Z 0))
          with (last (clock' :: rest') (of_Z 0)).
        split; [exact Hg | exact Hfo].
Qed.

Lemma parse_all_length (notes : list string) (fs : list F) :
  parse_all notes = Some fs -> List.length fs = List.length notes.
Proof.
  revert fs. induction notes as [|note rest IH]; intros fs; cbn [parse_all].
  - intros Hfs. injection Hfs as <-. reflexivity.
  - destruct (parse note) as [[base_note octave]|]; [|discriminate].
    destruct (parse_all rest) as [fs'|]; [|discriminate].
    intros Hfs. injection Hfs as <-. cbn [List.length]. rewrite (IH fs' eq_refl). reflexivity.
Qed.

(** The constructed sequencer points at its last entry. *)
Lemma ctor_index (notes : list string) (f0 g0 : F) (s : t) :
  ctor notes f0 g0 = Some s ->
  notes <> [] -> Z.of_nat (List.length notes) < size_max ->
  size s = Z.of_nat (List.length notes)
  /\ index s = Z.of_nat (List.length notes) - 1
  /\ gate_out s = g0
  /\ in_range s.
Proof.
  unfold ctor. destruct (parse_all notes) as [fs|] eqn:Efs; [|discriminate].
  intros Hs Hne Hsz. injection Hs as <-.
  pose proof (parse_all_length notes fs Efs) as Hlen.
  assert (Hpos : 0 < Z.of_nat (List.length notes))
    by (destruct notes; [contradiction | cbn [List.length]; lia]).
  unfold in_range, size. cbn [frequencies index gate_out]. rewrite Hlen.
  unfold wrap_size. rewrite Z.mod_small by lia. repeat split; lia.
Qed.
End Steps.
End SequencerFacts.

Module SequencerReal.
Import RealScalar ScalarFacts RealFacts Sequencer SequencerSpec SequencerFacts.
Local Open Scope R_scope.

Lemma high_real (c : R) : high c = if Rlt_dec 0 c then true else false.
Proof. reflexivity. Qed.

Lemma to_bool_zero : to_bool (0 : R) = false.
Proof. unfold to_bool. cbn. unfold Reqb. destruct (Req_dec_T 0 0); [reflexivity | lra]. Qed.

(** The token "C4" stands for the base note 0 in octave 4. *)
Lemma parse_C4 : parse "C4" = Some (0%Z, 4%Z).
Proof. reflexivity. Qed.

(** [440 * 2^(-9/12)] is 261.63 Hz to two decimals. *)
Lemma C4_frequency : 261.62 < @note_frequency R _ 0 4 < 261.63.
Proof.
  unfold note_frequency. cbn [fmul fexp2 fadd fsub fdiv of_Z scalar].
  replace (IZR (0 - 9) / 12 + 4 - 4) with (- (3 / 4)) by (cbn; lra).
  set (y := Rexp2 (- (3 / 4))).
  assert (Hy : 0 < y) by apply Rexp2_pos.
  assert (Hy4 : y ^ 4 = / 8).
  { rewrite <- (Rpower_pow 4 y Hy). unfold y, Rexp2. rewrite Rpower_mult.
    replace (- (3 / 4) * INR 4) with (- INR 3) by (cbn [INR]; lra).
    rewrite Rpower_Ropp, Rpower_pow by lra. cbn [pow]. lra. }
  split.
  - destruct (Rlt_dec 261.62 (440 * y)) as [Hlt|Hge]; [exact Hlt|exfalso].
    assert (Hle : y <= 261.62 / 440) by lra.
    pose proof (pow_incr y (261.62 / 440) 4 (conj (Rlt_le _ _ Hy) Hle)) as Hp.
    rewrite Hy4 in Hp. cbn [pow] in Hp. lra.
  - destruct (Rlt_dec (440 * y) 261.63) as [Hlt|Hge]; [exact Hlt|exfalso].
    assert (Hle : 261.63 / 440 <= y) by lra.
    assert (H0 : 0 <= 261.63 / 440) by lra.
    pose proof (pow_incr (261.63 / 440) y 4 (conj H0 Hle)) as Hp.
    rewrite Hy4 in Hp. cbn [pow] in Hp. lra.
Qed.

(** C6.  A sequencer constructed from [n] notes, [n >= 1], starts with its
    index at [n - 1].  If the cleaned gate it starts with is 0, then after
    any clock signal the index is [n - 1] plus the number of rising edges,
    modulo [n]: the first rising edge selects entry 0 and [n] further rising
    edges select it again.  After every tick [gate_out] is 1 if the clock
    sample of that tick is above zero and 0 otherwise, and [frequency_out] is
    the entry at the index.  A first tick with a high clock puts
    [frequencies[0]] on the output; for a list that starts with "C4" this is
    261.63 Hz to two decimals. *)
Theorem sequencer_cycle :
  forall (notes : list string) (f0 g0 : R) (s : @Sequencer.t R),
    ctor notes f0 g0 = Some s ->
    notes <> [] -> (Z.of_nat (List.length notes) < size_max)%Z ->
    g0 = 0 ->
    let n := Z.of_nat (List.length notes) in
    Z.of_nat (List.length (frequencies s)) = n
    /\ index s = (n - 1)%Z
    /\ (forall clocks : list R,
          exists s',
            run s clocks = Some s'
            /\ index s' = ((n - 1 + Z.of_nat (rising_edges false clocks)) mod n)%Z
            /\ (rising_edges false clocks = 1%nat -> index s' = 0%Z)
            /\ (rising_edges false clocks = S (List.length notes) -> index s' = 0%Z)
            /\ (clocks <> [] ->
                gate_out s' = (if Rlt_dec 0 (last clocks 0) then 1 else 0)
                /\ nth_error (frequencies s) (Z.to_nat (index s')) = Some (frequency_out s')))
    /\ (forall c : R, 0 < c ->
          exists s1,
            update (set_clock_in s c) = Some s1
            /\ index s1 = 0%Z
            /\ nth_error (frequencies s) 0 = Some (frequency_out s1)
            /\ gate_out s1 = 1
            /\ (forall rest, notes = "C4"%string :: rest ->
                  261.62 < frequency_out s1 < 261.63)).
Proof.
  intros notes f0 g0 s Hctor Hne Hsz Hg0 n.
  destruct (ctor_index notes f0 g0 s Hctor Hne Hsz) as (Hsize & Hidx & Hgate & Hrange).
  fold n in Hsize, Hidx.
  assert (Hn : (0 < n)%Z) by (destruct Hrange; unfold size in *; lia).
  assert (Hlow : to_bool (gate_out s) = false) by (rewrite Hgate, Hg0; apply to_bool_zero).
  assert (Hsteps : forall clocks : list R,
            exists s',
              run s clocks = Some s'
              /\ index s' = ((n - 1 + Z.of_nat (rising_edges false clocks)) mod n)%Z
              /\ (clocks <> [] ->
                  gate_out s' = (if Rlt_dec 0 (last clocks 0) then 1 else 0)
                  /\ nth_error (frequencies s) (Z.to_nat (index s')) = Some (frequency_out s'))).
  { intros clocks. destruct (run_steps clocks s Hrange) as (s' & Hrun & _ & _ & Hi & Hlast).
    rewrite Hlow, Hidx, Hsize in Hi. exists s'. split; [exact Hrun|]. split; [exact Hi|].
    intros Hc. destruct (Hlast Hc) as [Hg Hf]. split; [|exact Hf].
    rewrite Hg, high_real. unfold of_bool. change (@of_Z R scalar) with IZR.
    destruct (Rlt_dec 0 (last clocks 0)); reflexivity. }
  split; [exact Hsize|]. split; [exact Hidx|]. split.
  - intros clocks. destruct (Hsteps clocks) as (s' & Hrun & Hi & Hlast).
    exists s'. split; [exact Hrun|]. split; [exact Hi|]. split; [|split; [|exact Hlast]].
    + intros He. rewrite Hi, He. replace (n - 1 + Z.of_nat 1)%Z with (1 * n)%Z by lia.
      apply Z_mod_mult.
    + intros He. rewrite Hi, He. fold n.
      replace (n - 1 + Z.of_nat (S (List.length notes)))%Z with (2 * n)%Z by (unfold n; lia).
      apply Z_mod_mult.
  - intros c Hc. destruct (Hsteps [c]) as (s1 & Hrun & Hi & Hlast).
    cbn [run] in Hrun.
    destruct (update (set_clock_in s c)) as [s1'|] eqn:Eu; [|discriminate].
    injection Hrun as ->. exists s1. split; [reflexivity|].
    assert (Hedge : rising_edges false [c] = 1%nat).
    { cbn [rising_edges]. rewrite high_real. destruct (Rlt_dec 0 c); [reflexivity | lra]. }
    rewrite Hedge in Hi. replace (n - 1 + Z.of_nat 1)%Z with (1 * n)%Z in Hi by lia.
    rewrite Z_mod_mult in Hi.
    destruct Hlast as [Hg Hf]; [discriminate|]. rewrite Hi in Hf. cbn [last] in Hg.
    destruct (Rlt_dec 0 c); [|lra].
    split; [exact Hi|]. split; [exact Hf|]. split; [exact Hg|].
    intros rest ->. unfold ctor in Hctor. cbn [parse_all] in Hctor.
    rewrite parse_C4 in Hctor. destruct (parse_all rest) as [fs|]; [|discriminate].
    injection Hctor as <-. cbn [frequencies nth_error Z.to_nat] in Hf.
    injection Hf as <-. apply C4_frequency.
Qed.
End SequencerReal.

Module MIDIReal.
Import RealScalar RealFacts MIDI.
Local Open Scope R_scope.

Lemma ln_2_lt_1 : ln 2 < 1.
Proof.
  rewrite <- (ln_exp 1). apply ln_increasing; [lra|].
  pose proof (exp_ineq1 1). lra.
Qed.

(** The frequency of a note, split at a reference note [r]. *)
Lemma note_to_frequency_split (note r : R) :
  440 * Rexp2 ((note - 69) / 12)
  = 440 * Rexp2 ((r - 69) / 12) * exp ((note - r) / 12 * ln 2).
Proof.
  unfold Rexp2. replace ((note - 69) / 12) with ((r - 69) / 12 + (note - r) / 12) by lra.
  rewrite Rpower_plus. unfold Rpower at 2. ring.
Qed.

Lemma Rexp2_minus_5 : Rexp2 ((9 - 69) / 12) = / 32.
Proof.
  unfold Rexp2. replace ((9 - 69) / 12) with (- INR 5) by (cbn [INR]; lra).
  rewrite Rpower_Ropp, Rpower_pow by lra. cbn [pow]. f_equal. lra.
Qed.

Lemma Rexp2_minus_4 : Rexp2 ((21 - 69) / 12) = / 16.
Proof.
  unfold Rexp2. replace ((21 - 69) / 12) with (- INR 4) by (cbn [INR]; lra).
  rewrite Rpower_Ropp, Rpower_pow by lra. cbn [pow]. f_equal. lra.
Qed.

Lemma Rexp2_minus_2 : Rexp2 ((45 - 69) / 12) = / 4.
Proof.
  unfold Rexp2. replace ((45 - 69) / 12) with (- INR 2) by (cbn [INR]; lra).
  rewrite Rpower_Ropp, Rpower_pow by lra. cbn [pow]. f_equal. lra.
Qed.

(** A note's frequency in Hz is above its number: the exponential lies above
    its tangents at the notes 9 (13.75 Hz) and 21 (27.5 Hz). *)
Lemma frequency_above_note (x : R) : x < 440 * Rexp2 ((x - 69) / 12).
Proof.
  pose proof ln_lt_2 as Hl. pose proof ln_2_lt_1 as Hu.
  destruct (Rlt_dec x 0) as [Hneg|Hpos].
  { pose proof (Rexp2_pos ((x - 69) / 12)). lra. }
  destruct (Rle_dec x 20) as [Hx|Hx].
  - rewrite (note_to_frequency_split x 9), Rexp2_minus_5.
    pose proof (exp_ineq1_le ((x - 9) / 12 * ln 2)) as He.
    assert (Ht : x * 12 / 13.75 - 12 < (x - 9) * ln 2).
    { destruct (Rle_dec 9 x) as [H9|H9].
      - assert ((x - 9) * / 2 <= (x - 9) * ln 2) by (apply Rmult_le_compat_l; lra). lra.
      - assert ((9 - x) * ln 2 <= (9 - x) * 1) by (apply Rmult_le_compat_l; lra). lra. }
    lra.
  - rewrite (note_to_frequency_split x 21), Rexp2_minus_4.
    pose proof (exp_ineq1_le ((x - 21) / 12 * ln 2)) as He.
    assert (Ht : x * 12 / 27.5 - 12 < (x - 21) * ln 2).
    { destruct (Rle_dec 21 x) as [H21|H21].
      - assert ((x - 21) * / 2 <= (x - 21) * ln 2) by (apply Rmult_le_compat_l; lra). lra.
      - assert ((21 - x) * ln 2 <= (21 - x) * 1) by (apply Rmult_le_compat_l; lra). lra. }
    lra.
Qed.

Lemma note_to_frequency_above (note : Z) : IZR note < @note_to_frequency R _ note.
Proof. apply frequency_above_note. Qed.

Lemma note_to_frequency_45 : @note_to_frequency R _ 45 = 110.
Proof.
  unfold note_to_frequency. cbn [fmul fexp2 fsub fdiv of_Z scalar].
  rewrite Rexp2_minus_2. lra.
Qed.

Lemma note_to_frequency_69 : @note_to_frequency R _ 69 = 440.
Proof.
  unfold note_to_frequency. cbn [fmul fexp2 fsub fdiv of_Z scalar].
  replace ((69 - 69) / 12) with 0 by lra. rewrite Rexp2_0. lra.
Qed.

(** C5.  The key-pressure handler compares the channel's frequency, a value
    in Hz, with the note number of the event.  A note's frequency is never
    equal to its number, so a key pressure for the note that is selected,
    whichever it is, leaves the channel as it was: the aftertouch is not
    updated.  And a key pressure for another note updates it when that
    note's number happens to equal the selected frequency: with note 45
    selected, at 110 Hz, a key pressure for note 110 sets the aftertouch. *)
Theorem keypress_compares_frequency_with_note :
  forall (ch : @Channel R) (note vel : Z),
    (frequency ch = note_to_frequency note ->
       keypress ch note vel = ch
       /\ aftertouch (keypress ch note vel) = aftertouch ch)
    /\ (frequency ch = note_to_frequency 45 ->
       aftertouch (keypress ch 110 vel) = IZR vel / 127).
Proof.
  intros ch note vel. split; intros Hf.
  - assert (Hk : keypress ch note vel = ch).
    { unfold keypress. cbn [feqb of_Z scalar]. rewrite Hf.
      destruct (Reqb (note_to_frequency note) (IZR note)) eqn:E; [|reflexivity].
      apply Reqb_true in E. pose proof (note_to_frequency_above note). lra. }
    rewrite Hk. split; reflexivity.
  - unfold keypress. cbn [feqb of_Z scalar]. rewrite Hf, note_to_frequency_45.
    destruct (Reqb 110 110) eqn:E; [reflexivity|].
    apply Reqb_false in E. contradiction.
Qed.
End MIDIReal.

(** ** The square wave in binary32 *)

Module Binary32Facts.
Import Binary32.
Local Open Scope Z_scope.

Lemma digits2_pos_bound (m : positive) :
  2 ^ (Zpos (digits2_pos m) - 1) <= Zpos m < 2 ^ Zpos (digits2_pos m).
Proof.
  assert (Hdouble : forall d, 0 < d -> 2 ^ d = 2 * 2 ^ (d - 1)).
  { intros d Hd. rewrite <- Z.pow_succ_r by lia. f_equal. lia. }
  induction m as [m IH | m IH |]; cbn [digits2_pos].
  - rewrite Pos2Z.inj_succ, (Pos2Z.inj_xI m).
    pose proof (Hdouble (Z.succ (Zpos (digits2_pos m))) ltac:(lia)) as H1.
    pose proof (Hdouble (Zpos (digits2_pos m)) ltac:(lia)) as H2.
    replace (Z.succ (Zpos (digits2_pos m)) - 1) with (Zpos (digits2_pos m)) in * by lia.
    set (a := 2 ^ Zpos (digits2_pos m)) in *.
    set (b := 2 ^ (Zpos (digits2_pos m) - 1)) in *.
    set (c := 2 ^ Z.succ (Zpos (digits2_pos m))) in *.
    clearbody a b c. clear Hdouble. lia.
  - rewrite Pos2Z.inj_succ, (Pos2Z.inj_xO m).
    pose proof (Hdouble (Z.succ (Zpos (digits2_pos m))) ltac:(lia)) as H1.
    pose proof (Hdouble (Zpos (digits2_pos m)) ltac:(lia)) as H2.
    replace (Z.succ (Zpos (digits2_pos m)) - 1) with (Zpos (digits2_pos m)) in * by lia.
    set (a := 2 ^ Zpos (digits2_pos m)) in *.
    set (b := 2 ^ (Zpos (digits2_pos m) - 1)) in *.
    set (c := 2 ^ Z.succ (Zpos (digits2_pos m))) in *.
    clearbody a b c. clear Hdouble. lia.
  - cbn. lia.
Qed.

(** A valid binary32 number has at most 24 digits, and exactly 24 above the
    subnormal exponent. *)
Lemma valid_digits (s : bool) (m : positive) (e : Z) :
  valid_binary prec emax (S754_finite s m e) = true ->
  Zpos (digits2_pos m) <= 24 /\ (-149 < e -> Zpos (digits2_pos m) = 24).
Proof.
  unfold valid_binary, bounded, canonical_mantissa, fexp, SpecFloat.emin, prec, emax.
  intros Hv. apply andb_prop in Hv. destruct Hv as [Hc _]. apply Z.eqb_eq in Hc. lia.
Qed.

(** The integer nearest to a mantissa of less than [2^k] digits scaled by
    [2^(-k)] is 0 when the mantissa is at most [2^(k-1)] and 1 above. *)
Lemma split_small (m : positive) (k : Z) :
  0 < k -> Zpos m < 2 ^ k -> split_mantissa m k = (0, Zpos m).
Proof.
  intros Hk Hm. unfold split_mantissa. f_equal.
  - rewrite Z.shiftr_div_pow2 by lia. apply Z.div_small. lia.
  - rewrite Z.land_ones by lia. apply Z.mod_small. lia.
Qed.

Lemma rint_small (m : positive) (e : Z) :
  e < 0 -> Zpos m < 2 ^ (- e) ->
  b32_rint (S754_finite false m e)
  = match Zpos m ?= 2 ^ (- e - 1) with
    | Gt => b32_of_Z 1
    | _ => S754_zero false
    end.
Proof.
  intros He Hm. unfold b32_rint.
  replace (0 <=? e) with false by (symmetry; apply Z.leb_gt; lia).
  rewrite (split_small m (- e)) by lia.
  rewrite Z.shiftl_1_l. destruct (Zpos m ?= 2 ^ (- e - 1)); reflexivity.
Qed.

Section Square.
Context {libm : Libm}.

(** The value [VCO::update] gives [square_out] for a wrapped phase [p]. *)
Lemma square_of_phase (v : @VCO.t float32) :
  VCO.square_out (VCO.update v)
  = SFadd prec emax (SFmul prec emax (b32_rint (VCO.next_phase v)) (b32_of_Z (-2)))
      (b32_of_Z 1).
Proof. reflexivity. Qed.

(** The amended C8 bit for bit: for every valid binary32 phase from 0 to 1
    the square output is [+1] up to and including 0.5 and [-1] above. *)
Lemma binary32_square_wave (v : @VCO.t float32) :
  let p := VCO.next_phase v in
  valid_binary prec emax p = true ->
  (of_Z 0 <=? p)%flt = true -> (p <=? of_Z 1)%flt = true ->
  ((p <=? half)%flt = true -> VCO.square_out (VCO.update v) = of_Z 1)
  /\ ((half <? p)%flt = true -> VCO.square_out (VCO.update v) = of_Z (-1)).
Proof.
  intros p. rewrite square_of_phase. fold p. generalize p. clear p v.
  intros p Hv H0 H1.
  change (@of_Z float32 scalar 0) with (S754_zero false) in H0.
  change (@of_Z float32 scalar 1) with (S754_finite false 8388608 (-23)) in H1.
  change (@half float32 scalar) with (S754_finite false 8388608 (-24)).
  cbn [fleb fltb scalar] in *.
  destruct p as [s | s | | s m e]; try discriminate.
  - destruct s; split; intros H; (reflexivity || discriminate).
  - destruct s; discriminate.
  - destruct s; [discriminate|].
    destruct (valid_digits false m e Hv) as [Hd24 Hnorm].
    pose proof (digits2_pos_bound m) as Hm.
    assert (Hlt : Zpos m < 2 ^ 24).
    { eapply Z.lt_le_trans; [apply Hm|]. apply Z.pow_le_mono_r; lia. }
    unfold SFleb, SFltb, SFcompare in *.
    destruct (Z.compare_spec e (-23)) as [He | He | He]; [| |discriminate].
    + (* the phase is 1 *)
      subst e. rewrite Hnorm in Hm by lia.
      assert (Hm1 : m = 8388608%positive).
      { destruct (Pos.compare_cont Eq m 8388608) eqn:Ec; try discriminate.
        - apply Pos.compare_eq in Ec. exact Ec.
        - change (Pos.compare_cont Eq m 8388608) with (Pos.compare m 8388608) in Ec.
          change ((m < 8388608)%positive) in Ec.
          change (2 ^ (24 - 1)) with 8388608 in Hm. lia. }
      subst m. split; intros H; [discriminate | reflexivity].
    + destruct (Z.compare_spec e (-24)) as [He' | He' | He']; [| |lia].
      * (* the exponent of 0.5 *)
        subst e. rewrite Hnorm in Hm by lia. change (2 ^ (24 - 1)) with 8388608 in Hm.
        rewrite rint_small by (cbn; lia).
        change (2 ^ (- -24 - 1)) with 8388608.
        change (Z.compare (-24) (-24)) with Eq. cbv iota.
        change (Pos.compare_cont Eq m 8388608) with (Pos.compare m 8388608).
        change (Pos.compare_cont Eq 8388608 m) with (Pos.compare 8388608 m).
        rewrite (Pos.compare_antisym m 8388608).
        change (Zpos m ?= 8388608) with (Pos.compare m 8388608).
        destruct (Pos.compare m 8388608) eqn:Ec; cbn [CompOpp];
          split; intros H; (reflexivity || discriminate).
      * (* below 0.5 *)
        rewrite rint_small;
          [| lia | eapply Z.lt_le_trans; [exact Hlt | apply Z.pow_le_mono_r; lia]].
        assert (Hh : Zpos m < 2 ^ (- e - 1)).
        { eapply Z.lt_le_trans; [exact Hlt | apply Z.pow_le_mono_r; lia]. }
        apply Z.compare_lt_iff in Hh. rewrite Hh.
        replace (-24 ?= e) with Gt by (symmetry; apply Z.compare_gt_iff; lia).
        split; intros H; [reflexivity | discriminate].
Qed.
End Square.
End Binary32Facts.

(** ** The clamped delay in binary32 *)

Module Binary32Order.
Import Binary32.
Local Open Scope Z_scope.

(** The comparison of two floats, read the other way round. *)
Lemma SFcompare_antisym (x y : float32) :
  SFcompare y x = option_map CompOpp (SFcompare x y).
Proof.
  destruct x as [sx | sx | | sx mx ex], y as [sy | sy | | sy my ey];
    try reflexivity; try (destruct sx; reflexivity); try (destruct sy; reflexivity);
    try (destruct sx, sy; reflexivity).
  unfold SFcompare. destruct sx, sy; try reflexivity; cbn [option_map]; f_equal;
    rewrite (Z.compare_antisym ex ey); destruct (ex ?= ey); cbn [CompOpp]; try reflexivity.
  - rewrite CompOpp_involutive. apply (Pos.compare_cont_antisym my mx Eq).
  - symmetry. apply (Pos.compare_cont_antisym mx my Eq).
Qed.

(** On numbers the order is total: what is not below is at or above. *)
Lemma not_below_is_above (x y : float32) :
  x <> S754_nan -> y <> S754_nan -> SFltb x y = false -> SFleb y x = true.
Proof.
  intros Hx Hy. unfold SFltb, SFleb. rewrite (SFcompare_antisym x y).
  destruct (SFcompare x y) as [[ | | ]|] eqn:Ec; cbn; try reflexivity; try discriminate.
  intros _. destruct x, y; try contradiction; try discriminate;
    cbn in Ec; repeat match type of Ec with context [if ?b then _ else _] => destruct b end;
    discriminate.
Qed.

Lemma SFleb_refl (x : float32) : x <> S754_nan -> SFleb x x = true.
Proof.
  intros Hx. unfold SFleb. destruct x as [s | s | | s m e]; try contradiction.
  - reflexivity.
  - destruct s; reflexivity.
  - unfold SFcompare. rewrite Z.compare_refl, Pos.compare_cont_refl.
    destruct s; reflexivity.
Qed.

(** A float that is zero, infinite or finite with the sign [s]. *)
Definition signed (s : bool) (x : float32) : Prop :=
  match x with
  | S754_zero s' | S754_infinity s' | S754_finite s' _ _ => s' = s
  | S754_nan => False
  end.

Lemma shr_1_nonneg (mrs : shr_record) : 0 <= shr_m mrs -> 0 <= shr_m (shr_1 mrs).
Proof.
  destruct mrs as [m r s]. cbn [shr_m]. intros Hm.
  destruct m as [|p|p]; [cbn; lia | destruct p; cbn; lia | lia].
Qed.

Lemma iter_shr_1_nonneg (n : positive) (mrs : shr_record) :
  0 <= shr_m mrs -> 0 <= shr_m (iter_pos shr_1 n mrs).
Proof.
  revert mrs. induction n as [n IH | n IH |]; intros mrs Hm; cbn [iter_pos].
  - apply IH, IH, shr_1_nonneg, Hm.
  - apply IH, IH, Hm.
  - apply shr_1_nonneg, Hm.
Qed.

Lemma shr_fexp_nonneg (m e : Z) (l : location) :
  0 <= m -> 0 <= shr_m (fst (shr_fexp prec emax m e l)).
Proof.
  intros Hm. unfold shr_fexp, shr.
  assert (H0 : 0 <= shr_m (shr_record_of_loc m l)) by (destruct l as [|[ | | ]]; exact Hm).
  destruct (fexp prec emax (Zdigits2 m + e) - e); cbn [fst]; try exact H0.
  apply iter_shr_1_nonneg, H0.
Qed.

Lemma round_nearest_even_nonneg (m : Z) (l : location) :
  0 <= m -> 0 <= round_nearest_even m l.
Proof.
  intros Hm. unfold round_nearest_even. destruct l as [|[ | | ]]; try lia.
  destruct (Z.even m); lia.
Qed.

(** Rounding keeps the sign and yields no NaN. *)
Lemma binary_round_aux_signed (s : bool) (m e : Z) (l : location) :
  0 <= m -> signed s (binary_round_aux prec emax s m e l).
Proof.
  intros Hm. unfold binary_round_aux.
  pose proof (shr_fexp_nonneg m e l Hm) as H1.
  destruct (shr_fexp prec emax m e l) as [mrs' e']. cbn [fst] in H1.
  pose proof (shr_fexp_nonneg _ e' loc_Exact
                (round_nearest_even_nonneg _ (loc_of_shr_record mrs') H1)) as H2.
  destruct (shr_fexp prec emax _ e' loc_Exact) as [mrs'' e'']. cbn [fst] in H2.
  destruct (shr_m mrs'') as [|p|p]; [reflexivity | | lia].
  destruct (e'' <=? emax - prec); reflexivity.
Qed.

Lemma of_Z_signed (n : Z) : 0 <= n -> signed false (b32_of_Z n).
Proof.
  intros Hn. unfold b32_of_Z, binary_normalize. destruct n as [|p|p]; [reflexivity | | lia].
  unfold binary_round. destruct (shl_align p 0 _) as [mz ez].
  apply binary_round_aux_signed. lia.
Qed.

Lemma mul_signed (x y : float32) :
  signed false x -> (exists m e, y = S754_finite false m e) ->
  signed false (SFmul prec emax x y).
Proof.
  intros Hx (m & e & ->). destruct x as [s | s | | s mx ex]; cbn in Hx; try contradiction; subst s.
  - reflexivity.
  - reflexivity.
  - cbn [SFmul xorb]. apply binary_round_aux_signed. lia.
Qed.

Lemma signed_not_nan (s : bool) (x : float32) : signed s x -> x <> S754_nan.
Proof. intros Hx ->. exact Hx. Qed.

Lemma zero_le_signed (x : float32) : signed false x -> SFleb (S754_zero false) x = true.
Proof. destruct x as [s | s | | s m e]; cbn; intros Hx; try contradiction; subst s; reflexivity. Qed.

Section Clamp.
Context {libm : Libm}.

(** The upper bound of the clamp is a number at or above zero. *)
Lemma bound_signed (n : Z) : 0 <= n -> signed false (of_Z n * dt)%flt.
Proof.
  intros Hn. apply mul_signed; [apply of_Z_signed; exact Hn|].
  exists 11453246%positive, (-39). reflexivity.
Qed.

(** A clamped delay that is a number lies between zero and the bound. *)
Lemma clamp_bounds (n : Z) (x : float32) :
  0 <= n -> Delay.clamp n x <> S754_nan ->
  (of_Z 0 <=? Delay.clamp n x)%flt = true
  /\ (Delay.clamp n x <=? of_Z n * dt)%flt = true.
Proof.
  intros Hn. pose proof (bound_signed n Hn) as Hb.
  pose proof (signed_not_nan _ _ Hb) as Hbn.
  unfold Delay.clamp. cbn [fltb fleb scalar].
  change (@of_Z float32 scalar 0) with (S754_zero false).
  set (bound := (of_Z n * dt)%flt) in *.
  destruct (SFltb x (S754_zero false)) eqn:Ex.
  - destruct (SFltb bound (S754_zero false)) eqn:Eb; intros Hc.
    + split; [apply zero_le_signed, Hb | apply SFleb_refl, Hbn].
    + split; [reflexivity | apply not_below_is_above; [exact Hbn | discriminate | exact Eb]].
  - destruct (SFltb bound x) eqn:Eb; intros Hc.
    + split; [apply zero_le_signed, Hb | apply SFleb_refl, Hbn].
    + split; apply not_below_is_above; (assumption || discriminate).
Qed.

(** An update that returns has stored a number. *)
Lemma position_not_nan (c : float32) (pos : Z) :
  Delay.position c = Some pos -> c <> S754_nan.
Proof. intros Hp ->. discriminate Hp. Qed.

(** C10 bit for bit: after every [update()] that returns, the stored delay
    is the clamped request, it lies between 0 and [(size - 1) * dt], and
    [in] and the size of the deque are as before. *)
Lemma stored_delay_binary32 (d d' : @Delay.t float32) :
  Delay.update d = Some d' ->
  let n := wrap_size (Z.of_nat (List.length (Delay.buffer d)) - 1) in
  Delay.delay d' = Delay.clamp n (Delay.delay d)
  /\ (of_Z 0 <=? Delay.delay d')%flt = true
  /\ (Delay.delay d' <=? of_Z n * dt)%flt = true
  /\ Delay.in_ d' = Delay.in_ d
  /\ List.length (Delay.buffer d') = List.length (Delay.buffer d).
Proof.
  intros Hu n.
  assert (Hn : 0 <= n) by (apply Z.mod_pos_bound; reflexivity).
  unfold Delay.update, Delay.clamped, Delay.shift in Hu. fold n in Hu.
  destruct (Delay.buffer d) as [|x buf] eqn:Ebuf; [discriminate|].
  set (shifted := Delay.in_ d :: removelast (x :: buf)) in *.
  assert (Hlen : List.length shifted = List.length (x :: buf)).
  { unfold shifted. cbn [List.length].
    exact (DelayFacts.length_removelast (x :: buf) ltac:(discriminate)). }
  cbv zeta in Hu. rewrite Hlen in Hu. fold n in Hu.
  unfold Delay.interpolate in Hu. cbn [Delay.delay Delay.buffer Delay.in_] in Hu.
  destruct (Delay.position (Delay.clamp n (Delay.delay d))) as [pos|] eqn:Epos; [|discriminate].
  destruct (nth_error shifted (Z.to_nat pos)); [|discriminate].
  destruct (nth_error shifted (Z.to_nat (wrap_size (pos + 1)))); [|discriminate].
  injection Hu as <-. cbn [Delay.delay Delay.buffer Delay.in_].
  destruct (clamp_bounds n (Delay.delay d) Hn (position_not_nan _ _ Epos)) as [Hlo Hhi].
  repeat split; assumption.
Qed.
End Clamp.
End Binary32Order.

(** ** Replays in binary32

    The runs the theorems above single out, evaluated with IEEE-754 binary32
    arithmetic.  None of them reaches a function of the C mathematical
    library, so they hold for every such library. *)

Module Binary32Replay.
Import Binary32.

Section Replay.
Context {libm : Libm}.

(** [dt] is the binary32 number nearest to 1/48000 and [1.0f / dt] is exactly
    48000. *)
Lemma dt_binary32 :
  dt = S754_finite false 11453246 (-39)
  /\ (of_Z 1 / dt)%flt = of_Z 48000
  /\ (of_Z 48000 * dt)%flt = of_Z 1.
Proof. repeat split. Qed.

(** [Delay(1)] holds 48001 samples and its first [update()] reads the index
    48001. *)
Lemma delay_default_reads_past_the_end :
  match Delay.ctor (of_Z 1) with
  | Some d =>
      Z.of_nat (List.length (Delay.buffer d)) = 48001%Z
      /\ option_map Delay.delay (Delay.clamped d) = Some (of_Z 1)
      /\ Delay.position (of_Z 1) = Some 48000%Z
      /\ Delay.update d = None
  | None => False
  end.
Proof. vm_compute. repeat split. Qed.

(** A delay requested beyond the maximum is clamped to the maximum, and the
    update then reads past the end as well: here half a second is the
    maximum and one second is requested. *)
Lemma delay_clamped_reads_past_the_end :
  match Delay.ctor half with
  | Some d =>
      Z.of_nat (List.length (Delay.buffer d)) = 24001%Z
      /\ Delay.update {| Delay.in_ := Delay.in_ d; Delay.delay := of_Z 1;
                         Delay.out := Delay.out d; Delay.buffer := Delay.buffer d |} = None
  | None => False
  end.
Proof. vm_compute. repeat split. Qed.

(** An oscillator at 24000 Hz reaches the phase 0.5 exactly and its square
    output is [+1] there. *)
Lemma binary32_square_tie :
  VCO.next_phase (VCO.ctor (of_Z 24000)) = half
  /\ VCO.square_out (VCO.update (VCO.ctor (of_Z 24000))) = of_Z 1.
Proof. split; reflexivity. Qed.

(** At 12000 Hz the phase advances by a quarter per tick, which binary32
    represents exactly: the sawtooth takes the values -0.5, 0, 0.5 and is
    back at -1 after four updates. *)
Lemma quarter_steps_binary32 :
  map VCO.sawtooth_out
    [Nat.iter 1 VCO.update (VCO.ctor (of_Z 12000));
     Nat.iter 2 VCO.update (VCO.ctor (of_Z 12000));
     Nat.iter 3 VCO.update (VCO.ctor (of_Z 12000));
     Nat.iter 4 VCO.update (VCO.ctor (of_Z 12000))]
  = [(- half)%flt; S754_zero false; half; of_Z (-1)].
Proof. reflexivity. Qed.

(** A request above the bound is stored as the bound, a negative one as
    zero. *)
Lemma clamp_binary32 :
  Delay.clamp 24000 (of_Z 1) = half
  /\ Delay.clamp 24000 (of_Z (-1)) = of_Z 0
  /\ Delay.clamp 24000 (of_Z 1 / of_Z 4)%flt = (of_Z 1 / of_Z 4)%flt.
Proof. repeat split. Qed.

(** With a library whose [exp2f] is exact at 0 and at -2, note 69 is 440 Hz
    and note 45 is 110 Hz; a key pressure for the selected note 69 changes
    nothing, and with note 45 selected a key pressure for note 110 sets the
    aftertouch. *)
Lemma keypress_binary32 (ch : @MIDI.Channel float32) (vel : Z) :
  exp2f (S754_zero false) = of_Z 1 ->
  exp2f (of_Z (-2)) = (of_Z 1 / of_Z 4)%flt ->
  MIDI.note_to_frequency 69 = of_Z 440
  /\ MIDI.note_to_frequency 45 = of_Z 110
  /\ (MIDI.frequency ch = MIDI.note_to_frequency 69 -> MIDI.keypress ch 69 vel = ch)
  /\ (MIDI.frequency ch = MIDI.note_to_frequency 45 ->
      MIDI.aftertouch (MIDI.keypress ch 110 vel) = (of_Z vel / of_Z 127)%flt).
Proof.
  intros H0 H2.
  assert (H69 : MIDI.note_to_frequency 69 = of_Z 440).
  { unfold MIDI.note_to_frequency. cbn [fexp2 scalar].
    change ((of_Z 69 - of_Z 69) / of_Z 12)%flt with (S754_zero false).
    rewrite H0. reflexivity. }
  assert (H45 : MIDI.note_to_frequency 45 = of_Z 110).
  { unfold MIDI.note_to_frequency. cbn [fexp2 scalar].
    change ((of_Z 45 - of_Z 69) / of_Z 12)%flt with (@of_Z float32 scalar (-2)).
    rewrite H2. reflexivity. }
  repeat split; try assumption.
  - intros Hf. unfold MIDI.keypress. rewrite Hf, H69. reflexivity.
  - intros Hf. unfold MIDI.keypress. rewrite Hf, H45. reflexivity.
Qed.
End Replay.
End Binary32Replay.

(** ** The theorems at concrete inputs *)

Module Instances.
Import RealScalar ScalarFacts RealFacts.
Import MIDISpec DelaySpec SequencerSpec EnvelopeSpec.
Local Open Scope R_scope.


(** The default delay line of one second at its constructed delay. *)
Lemma interpolation_reads_past_the_end_witness :
  Delay.ctor 1 = Some one_second
  /\ Delay.update one_second = None.
Proof.
  split; [apply DelayFacts.ctor_one_second|].
  destruct DelayFacts.one_second_shape as (Hne & Hsz & Hn).
  destruct (DelayFacts.interpolation_reads_past_the_end one_second Hne Hsz)
    as (_ & _ & Hmax).
  apply Hmax. rewrite Hn. cbn [Delay.delay one_second]. rewrite dt_value. lra.
Defined.


Lemma keypress_compares_frequency_with_note_witness :
  MIDI.frequency channel_a440 = MIDI.highest_note_frequency (MIDI.notes channel_a440)
  /\ MIDI.aftertouch (MIDI.keypress channel_a440 69 100) = 0.
Proof.
  assert (Hf : MIDI.frequency channel_a440 = MIDI.note_to_frequency 69)
    by (symmetry; apply MIDIReal.note_to_frequency_69).
  split; [exact Hf|].
  destruct (MIDIReal.keypress_compares_frequency_with_note channel_a440 69 100) as [Hsame _].
  destruct (Hsame Hf) as [_ Ha]. exact Ha.
Defined.

Lemma sequencer_cycle_witness :
  Sequencer.ctor ["C4"; "E4"; "G4"; "C5"]%string 0 0 = Some four_notes
  /\ exists s1,
       Sequencer.update (Sequencer.set_clock_in four_notes 1) = Some s1
       /\ Sequencer.index s1 = 0%Z
       /\ 261.62 < Sequencer.frequency_out s1 < 261.63.
Proof.
  assert (Hctor : Sequencer.ctor ["C4"; "E4"; "G4"; "C5"]%string 0 0 = Some four_notes)
    by reflexivity.
  split; [exact Hctor|].
  destruct (SequencerReal.sequencer_cycle ["C4"; "E4"; "G4"; "C5"]%string 0 0 four_notes Hctor)
    as (_ & _ & _ & Hpulse).
  - discriminate.
  - reflexivity.
  - reflexivity.
  - destruct (Hpulse 1) as (s1 & Hu & Hi & _ & _ & Hc4); [lra|].
    exists s1. split; [exact Hu|]. split; [exact Hi|]. apply (Hc4 _ eq_refl).
Defined.

Lemma square_sign_witness :
  VCO.square_out (VCO.update (VCO.ctor 24000)) = 1
  /\ VCO.square_out (VCO.update (VCO.ctor 36000)) = -1.
Proof.
  split.
  - apply (proj1 (VCOFacts.square_sign (VCO.ctor 24000))).
    rewrite VCOFacts.next_phase_24000. lra.
  - apply (proj2 (VCOFacts.square_sign (VCO.ctor 36000))).
    rewrite VCOFacts.next_phase_36000. lra.
Defined.

End Instances.

(** * Further properties of the modules *)

(** ** Powers of two *)

Module Exp2Facts.
Import RealScalar RealFacts.
Local Open Scope R_scope.



End Exp2Facts.

(** ** Scheduler and speakers *)

Module SchedulerFacts.
Import Registry SchedulerSpec.

Lemma construct_modules (ps : list ptr) (registry : Registry.t) :
  modules (construct ps registry) = modules registry ++ ps.
Proof.
  unfold construct. revert registry.
  induction ps as [|p ps IH]; intros registry; cbn [fold_left].
  - symmetry. apply app_nil_r.
  - rewrite IH. unfold Module_.ctor. cbn [modules]. rewrite <- app_assoc. reflexivity.
Qed.

(** X1.  Modules constructed one after the other are registered in the
    order of their construction, behind what the registry held before, with
    no entry dropped or merged; so the scheduler updates them in that
    order. *)
Theorem construction_order :
  forall (ps : list ptr) (registry : Registry.t),
    modules (construct ps registry) = modules registry ++ ps
    /\ modules (construct ps the_registry) = ps
    /\ forall (F Mem : Type) (update : ptr -> @Audio.t F Mem -> @Audio.t F Mem) a,
         Audio.update_all update (construct ps the_registry) a
         = fold_left (fun a this => update this a) ps a.
Proof.
  intros ps registry. split; [apply construct_modules|].
  assert (Hps : modules (construct ps the_registry) = ps)
    by (rewrite construct_modules; reflexivity).
  split; [exact Hps|]. intros F Mem update a. unfold Audio.update_all.
  rewrite Hps. reflexivity.
Qed.

Section Blocks.
Context {F : Type} `{Scalar F}.
Variable Mem : Type.
Variable update : ptr -> @Audio.t F Mem -> @Audio.t F Mem.

Lemma frames_add (n m : nat) (registry : Registry.t) (a : Audio.t Mem) :
  Audio.frames update (n + m) registry a
  = (fst (Audio.frames update m registry (fst (Audio.frames update n registry a))),
     snd (Audio.frames update n registry a)
     ++ snd (Audio.frames update m registry (fst (Audio.frames update n registry a)))).
Proof.
  revert a. induction n as [|n IH]; intros a.
  - cbn. destruct (Audio.frames update m registry a). reflexivity.
  - cbn [Nat.add Audio.frames].
    destruct (Audio.tick update registry a) as [a1 fr].
    rewrite IH. destruct (Audio.frames update n registry a1) as [a2 fs]. reflexivity.
Qed.

(** X2.  The callback writes one stereo frame per eight bytes of [len],
    and filling two buffers one after the other gives the frames and the
    final state of filling one buffer of the joint length: the modules do
    not see the block boundaries. *)
Theorem callback_blocks :
  forall (registry : Registry.t) (a : Audio.t Mem) (len1 len2 : Z),
    (0 <= len1)%Z -> (0 <= len2)%Z -> (len1 mod 8 = 0)%Z ->
    let first := Audio.callback update registry len1 a in
    let second := Audio.callback update registry len2 (fst first) in
    Audio.callback update registry (len1 + len2) a
    = (fst second, snd first ++ snd second)
    /\ Z.of_nat (List.length (snd first)) = (len1 / 8)%Z.
Proof.
  intros registry a len1 len2 H1 H2 Hm first second. subst first second.
  unfold Audio.callback. split.
  - replace (Z.to_nat ((len1 + len2) / 8))
      with (Z.to_nat (len1 / 8) + Z.to_nat (len2 / 8))%nat.
    + apply frames_add.
    + rewrite <- Z2Nat.inj_add by (apply Z.div_pos; lia). f_equal.
      rewrite (Z.div_mod len1 8) at 2 by lia. rewrite Hm, Z.add_0_r.
      rewrite Z.mul_comm, Z.div_add_l by lia. reflexivity.
  - rewrite AudioFacts.frames_length. apply Z2Nat.id. apply Z.div_pos; lia.
Qed.
End Blocks.
End SchedulerFacts.

Module MixerFacts.
Import RealScalar RealFacts MixerSpec.
Local Open Scope R_scope.


End MixerFacts.

(** ** Waveforms of the VCO *)

Module VCOWaves.
Import RealScalar RealFacts VCO VCOSpec VCOFacts VCOTune.
Local Open Scope R_scope.






End VCOWaves.

(** ** Shape of the envelope *)

Module EnvelopeShape.
Import RealScalar RealFacts Exp2Facts Envelope EnvelopeFacts.
Local Open Scope R_scope.

Lemma update_frame (e : @Envelope.t R) :
  gate_in (update e) = gate_in e /\ attack (update e) = attack e
  /\ decay (update e) = decay e /\ release (update e) = release e.
Proof.
  unfold update. destruct (gated_state e); cbn; try (repeat split; fail).
  destruct (Rleb 1 (amplitude_out e + dt / attack e)); repeat split.
Qed.

Lemma update_unit_range (e : @Envelope.t R) :
  0 < attack e -> 0 < decay e -> 0 < release e ->
  0 <= amplitude_out e <= 1 -> 0 <= amplitude_out (update e) <= 1.
Proof.
  intros Ha Hd Hr Hamp.
  assert (Hstep : forall time, 0 < time ->
            0 <= amplitude_out e * Rexp2 (- dt / time) <= 1).
  { intros time Ht. split; [|apply decay_step; [exact Ht | lra]].
    pose proof (Rexp2_pos (- dt / time)). nra. }
  assert (Hinc : 0 < dt / attack e).
  { pose proof dt_pos. apply Rdiv_lt_0_compat; assumption. }
  unfold update. destruct (gated_state e); cbn; [|apply Hstep; assumption..].
  destruct (Rleb 1 (amplitude_out e + dt / attack e)) eqn:E; cbn; [lra|].
  apply Rleb_false in E. lra.
Qed.

(** X7.  With positive attack, decay and release times, an amplitude that
    starts between 0 and 1 stays between 0 and 1 for ever, whatever the
    gate signal does from tick to tick and whatever the state the envelope
    starts in. *)
Theorem amplitude_in_unit_range :
  forall (gates : list R) (e : @Envelope.t R),
    0 < attack e -> 0 < decay e -> 0 < release e ->
    0 <= amplitude_out e <= 1 ->
    0 <= amplitude_out (EnvelopeRun.run e gates) <= 1.
Proof.
  unfold EnvelopeRun.run.
  induction gates as [|gate gates IH]; intros e Ha Hd Hr Hamp; cbn [fold_left];
    [exact Hamp|].
  destruct (update_frame (EnvelopeRun.set_gate_in e gate)) as (_ & Ha' & Hd' & Hr').
  apply IH.
  - rewrite Ha'. exact Ha.
  - rewrite Hd'. exact Hd.
  - rewrite Hr'. exact Hr.
  - apply update_unit_range; assumption.
Qed.












End EnvelopeShape.

(** ** Slews and filter *)

Module SlewFacts.
Import RealScalar RealFacts RealMath.
Local Open Scope R_scope.





Section Linear.
Import LinearSlew.



End Linear.

Section Exponential.
Import ExponentialSlew.








End Exponential.
End SlewFacts.

Module VCFFacts.
Import RealScalar RealFacts RealMath VCF.
Local Open Scope R_scope.

Lemma pi_value : @pi R _ = PI.
Proof. unfold pi. cbn. rewrite atan_1. field. Qed.

Lemma asin_half : asin (@half R _) = PI / 6.
Proof.
  rewrite half_value, <- sin_PI6. apply asin_sin. pose proof PI_RGT_0. lra.
Qed.

(** X13.  For a cutoff that is not negative, the coefficient [f] of the
    filter lies between 0 and 1: it is [2 sin (pi * cutoff / 48000)] up to
    a cutoff of 8000 Hz, a sixth of the sample rate, and exactly 1 from
    there on, however large the cutoff. *)
Theorem coefficient_range :
  forall v : @VCF.t R,
    0 <= cutoff v ->
    0 <= coefficient v <= 1
    /\ (cutoff v <= 8000 -> coefficient v = 2 * sin (PI * cutoff v / 48000))
    /\ (8000 <= cutoff v -> coefficient v = 1).
Proof.
  intros v Hc. pose proof PI_RGT_0 as Hpi.
  unfold coefficient, fmin. cbn [fmul fsin fltb fasin of_Z scalar math].
  rewrite pi_value, asin_half, dt_value.
  replace (PI * cutoff v * (1 / 48000)) with (PI * cutoff v / 48000) by lra.
  assert (Hsix : 2 * sin (PI / 6) = 1) by (rewrite sin_PI6; lra).
  destruct (Rltb (PI / 6) (PI * cutoff v / 48000)) eqn:E.
  - apply Rltb_true in E. assert (8000 < cutoff v) by nra.
    rewrite Hsix. repeat split; intros; lra.
  - apply Rltb_false in E. assert (Hle : cutoff v <= 8000) by nra.
    assert (H0 : 0 <= PI * cutoff v / 48000) by nra.
    pose proof (sin_ge_0 (PI * cutoff v / 48000) H0 ltac:(lra)) as Hs0.
    pose proof (sin_incr_1 (PI * cutoff v / 48000) (PI / 6)
                  ltac:(lra) ltac:(lra) ltac:(lra) ltac:(lra) E) as Hs1.
    rewrite sin_PI6 in Hs1.
    split; [lra|]. split; [reflexivity|]. intros Hge.
    assert (Heq : cutoff v = 8000) by lra. rewrite Heq.
    replace (PI * 8000 / 48000) with (PI / 6) by lra. exact Hsix.
Qed.


End VCFFacts.

(** ** The delay line *)

Module DelayLine.
Import RealScalar RealFacts Delay DelaySpec DelayFacts.
Local Open Scope R_scope.







End DelayLine.

(** ** Notes of the sequencer *)

Module SequencerNotes.
Import Sequencer ScalarFacts SequencerSpec SequencerFacts.

Lemma at_In (table : list (string * Z)) (key : string) (v : Z) :
  at_ table key = Some v -> exists k, In (k, v) table.
Proof.
  induction table as [|[k w] rest IH]; cbn [at_]; [discriminate|].
  destruct (String.eqb k key).
  - intros Hv. injection Hv as <-. exists k. left. reflexivity.
  - intros Hv. destruct (IH Hv) as [k' Hk']. exists k'. right. exact Hk'.
Qed.

Lemma base_notes_range (key : string) (v : Z) :
  at_ base_notes key = Some v -> (-1 <= v <= 12)%Z.
Proof.
  intros Hv. destruct (at_In _ _ _ Hv) as [k Hk].
  unfold base_notes in Hk. cbn [In] in Hk.
  repeat (destruct Hk as [Hk|Hk]; [injection Hk as _ <-; lia|]). contradiction.
Qed.

Lemma leading_digits_nonneg (s : string) (acc : Z) :
  (0 <= acc)%Z -> (0 <= leading_digits s acc)%Z.
Proof.
  revert acc. induction s as [|c rest IH]; intros acc Hacc; cbn [leading_digits]; [exact Hacc|].
  destruct (is_digit c) eqn:Ed; [|exact Hacc].
  apply IH. unfold is_digit in Ed. apply andb_prop in Ed. destruct Ed as [Ed _].
  apply Nat.leb_le in Ed. lia.
Qed.

Section Parsing.
Context {F : Type} {S : Scalar F}.

Lemma parse_all_none (notes : list string) :
  @parse_all F S notes = None <-> exists note, In note notes /\ parse note = None.
Proof.
  induction notes as [|note rest IH]; cbn [parse_all].
  - split; [discriminate | intros (n & [] & _)].
  - destruct (parse note) as [[b o]|] eqn:Ep.
    + destruct (parse_all rest) as [fs|] eqn:Er.
      * split; [discriminate|]. intros (n & [<-|Hin] & Hn); [congruence|].
        assert (Hcon : Some fs = None) by (apply (proj2 IH); exists n; split; assumption).
        discriminate.
      * split; [|reflexivity]. intros _.
        destruct (proj1 IH eq_refl) as (n & Hin & Hn).
        exists n. split; [right; exact Hin | exact Hn].
    + split; [|reflexivity]. intros _. exists note. split; [left; reflexivity | exact Ep].
Qed.

(** X19.  The constructor fails exactly when one of the tokens cannot be
    read; a token without a digit, so without an octave, cannot be read;
    and a token that is read has a base note between -1 and 12, one of the
    table, and an octave between 0 and [INT_MAX].  When the constructor
    succeeds there is one frequency per token. *)
Theorem constructor_reads_every_token :
  forall (notes : list string) (f0 g0 : F),
    (ctor notes f0 g0 = None <-> exists note, In note notes /\ parse note = None)
    /\ (forall s, ctor notes f0 g0 = Some s ->
          List.length (frequencies s) = List.length notes)
    /\ (forall note, find_first_of_digit note = None -> parse note = None)
    /\ (forall note base_note octave,
          parse note = Some (base_note, octave) ->
          (-1 <= base_note <= 12 /\ 0 <= octave <= 2 ^ 31 - 1)%Z).
Proof.
  intros notes f0 g0. split; [|split; [|split]].
  - rewrite <- parse_all_none. unfold ctor.
    destruct (parse_all notes); split; intros; congruence.
  - intros s. unfold ctor. destruct (parse_all notes) as [fs|] eqn:Ep; [|discriminate].
    intros Hs. injection Hs as <-. cbn [frequencies].
    apply parse_all_length. exact Ep.
  - intros note Hd. unfold parse. rewrite Hd. reflexivity.
  - intros note b o. unfold parse.
    destruct (find_first_of_digit note) as [pos|]; [|discriminate].
    destruct (at_ base_notes _) as [b'|] eqn:Eb; [|discriminate].
    unfold stoi. destruct (Z.leb _ _) eqn:El; [|discriminate].
    intros Hp. injection Hp as <- <-. apply Z.leb_le in El.
    split; [apply (base_notes_range _ _ Eb)|].
    split; [apply leading_digits_nonneg; lia | exact El].
Qed.

(** X20.  A sequencer constructed from no notes at all has its index at
    [2 ^ 64 - 1], and it cannot be updated: with a rising clock the
    remainder by the size 0 is taken, otherwise the entry at that index of
    the empty vector is read. *)
Theorem empty_sequencer_cannot_run :
  forall f0 g0 : F,
    exists s,
      ctor [] f0 g0 = Some s
      /\ index s = (2 ^ 64 - 1)%Z
      /\ (forall clock, update (set_clock_in s clock) = None)
      /\ (forall clocks, clocks <> [] -> run s clocks = None).
Proof.
  intros f0 g0. eexists. split; [reflexivity|]. split; [reflexivity|].
  assert (Hu : forall clock,
            update (set_clock_in
                      {| clock_in := of_Z 0; frequencies := []; frequency_out := f0;
                         gate_out := g0; index := wrap_size (Z.of_nat 0 - 1) |} clock)
            = None).
  { intros clock. unfold update, next_index.
    cbn [set_clock_in clock_in gate_out frequencies index List.length].
    destruct (_ && _)%bool; [reflexivity|].
    destruct (Z.to_nat _); reflexivity. }
  split; [exact Hu|].
  intros [|clock rest] Hne; [contradiction|]. cbn [run].
  cbn [List.length] in Hu |- *. rewrite Hu. reflexivity.
Qed.
End Parsing.

Section HeldClock.
Context {F : Type} {S : Scalar F} {SB : ScalarBool S}.
Local Open Scope Z_scope.

Lemma edges_all_high (clocks : list F) :
  Forall (fun clock => high clock = true) clocks ->
  rising_edges true clocks = 0%nat
  /\ (clocks <> [] -> rising_edges false clocks = 1%nat).
Proof.
  induction 1 as [|clock rest Hc _ [IH _]]; cbn [rising_edges].
  - split; [reflexivity | intros Hne; contradiction].
  - rewrite Hc, IH. split; reflexivity.
Qed.

Lemma edges_all_low (clocks : list F) (g : bool) :
  Forall (fun clock => high clock = false) clocks -> rising_edges g clocks = 0%nat.
Proof.
  intros Hlow. revert g. induction Hlow as [|clock rest Hc _ IH]; intros g; cbn [rising_edges].
  - reflexivity.
  - rewrite Hc, IH. reflexivity.
Qed.

(** X21.  The sequencer steps on the edge, not on the level: from a low
    gate, a clock that is held above 0 for any number of ticks advances the
    index by exactly one entry, wrapping at the end of the list, and a clock
    that stays at or below 0 leaves the index where it is. *)
Theorem held_clock_steps_once :
  forall (clocks : list F) (s : @Sequencer.t F),
    in_range s -> to_bool (gate_out s) = false ->
    (clocks <> [] -> Forall (fun clock => high clock = true) clocks ->
     exists s', run s clocks = Some s'
                /\ index s' = (index s + 1) mod size s
                /\ gate_out s' = of_Z 1)
    /\ (Forall (fun clock => high clock = false) clocks ->
        exists s', run s clocks = Some s' /\ index s' = index s).
Proof.
  intros clocks s Hs Hg.
  destruct (run_steps clocks s Hs) as (s' & Hrun & _ & _ & Hi & Hlast).
  rewrite Hg in Hi. split.
  - intros Hne Hhigh. exists s'. split; [exact Hrun|].
    destruct (edges_all_high clocks Hhigh) as [_ He]. rewrite (He Hne) in Hi.
    split; [exact Hi|]. destruct (Hlast Hne) as [Hgate _]. rewrite Hgate.
    replace (high (last clocks (of_Z 0))) with true; [reflexivity|].
    symmetry. clear - Hne Hhigh.
    induction Hhigh as [|clock rest Hc Hrest IH]; [contradiction|].
    destruct rest as [|c' rest']; [exact Hc|]. apply IH. discriminate.
  - intros Hlow. exists s'. split; [exact Hrun|].
    rewrite (edges_all_low clocks false Hlow) in Hi.
    destruct Hs as [Hidx _]. rewrite Hi. change (Z.of_nat 0) with 0.
    rewrite Z.add_0_r. apply Z.mod_small. exact Hidx.
Qed.
End HeldClock.
End SequencerNotes.

Module NoteFrequencies.
Import RealScalar RealFacts Exp2Facts.
Local Open Scope R_scope.

End NoteFrequencies.

(** ** Channels and events of the MIDI adapter *)

Module BitsetFacts.
Local Open Scope Z_scope.

Lemma below_pow2_bits (a n : Z) :
  0 <= a -> 0 <= n ->
  (a < 2 ^ n <-> forall i, n <= i -> Z.testbit a i = false).
Proof.
  intros Ha Hn. split.
  - intros Hlt i Hi. destruct (Z.eq_dec a 0) as [->|Hne]; [apply Z.testbit_0_l|].
    apply Z.bits_above_log2; [exact Ha|].
    assert (Z.log2 a < n) by (apply Z.log2_lt_pow2; lia). lia.
  - intros Hbits. destruct (Z.lt_ge_cases a (2 ^ n)) as [Hlt|Hge]; [exact Hlt|exfalso].
    assert (Hpos : 0 < a) by (pose proof (Z.pow_pos_nonneg 2 n); lia).
    assert (Hlog : n <= Z.log2 a) by (apply Z.log2_le_pow2; assumption).
    pose proof (Z.bit_log2 a Hpos) as Hbit. rewrite (Hbits _ Hlog) in Hbit. discriminate.
Qed.

Lemma setbit_range (a p : Z) :
  0 <= a < 2 ^ 128 -> 0 <= p < 128 ->
  0 <= Z.setbit a p < 2 ^ 128 /\ Z.setbit a p <> 0.
Proof.
  intros Ha Hp.
  assert (Hn : 0 <= Z.setbit a p).
  { rewrite Z.setbit_spec'. apply Z.lor_nonneg. split; [lia|].
    apply Z.pow_nonneg. lia. }
  split; [split; [exact Hn|]|].
  - apply below_pow2_bits; [exact Hn | lia|]. intros i Hi.
    rewrite Z.setbit_neq by lia. apply (proj1 (below_pow2_bits a 128 ltac:(lia) ltac:(lia))); lia.
  - intros Hz. pose proof (Z.setbit_eq a p ltac:(lia)) as Hb.
    rewrite Hz, Z.testbit_0_l in Hb. discriminate.
Qed.

Lemma clearbit_range (a p : Z) :
  0 <= a < 2 ^ 128 -> 0 <= p ->
  0 <= Z.clearbit a p < 2 ^ 128 /\ (Z.clearbit a p <> 0 -> a <> 0).
Proof.
  intros Ha Hp.
  assert (Hn : 0 <= Z.clearbit a p).
  { rewrite Z.clearbit_spec'. apply Z.ldiff_nonneg. left. lia. }
  split; [split; [exact Hn|]|].
  - apply below_pow2_bits; [exact Hn | lia|]. intros i Hi.
    destruct (Z.eq_dec p i) as [->|Hne].
    + apply Z.clearbit_eq.
    + rewrite Z.clearbit_neq by lia.
      apply (proj1 (below_pow2_bits a 128 ltac:(lia) ltac:(lia))); lia.
  - intros Hc Ha0. apply Hc. rewrite Ha0, Z.clearbit_spec'. apply Z.ldiff_0_l.
Qed.

Lemma highest_bit (a n : Z) :
  0 <= n -> 0 <= a < 2 ^ (n + 1) ->
  if Z.testbit a n then Z.log2 a = n /\ a <> 0 else a < 2 ^ n.
Proof.
  intros Hn Ha. destruct (Z.testbit a n) eqn:Eb.
  - assert (Hge : 2 ^ n <= a).
    { destruct (Z.lt_ge_cases a (2 ^ n)) as [Hlt|Hge]; [|exact Hge].
      rewrite (proj1 (below_pow2_bits a n ltac:(lia) Hn) Hlt n) in Eb by lia. discriminate. }
    split; [apply Z.log2_unique; lia|].
    pose proof (Z.pow_pos_nonneg 2 n). lia.
  - apply below_pow2_bits; [lia | exact Hn|]. intros i Hi.
    destruct (Z.eq_dec i n) as [->|Hne]; [exact Eb|].
    apply (proj1 (below_pow2_bits a (n + 1) ltac:(lia) ltac:(lia))); lia.
Qed.
Lemma top_bit_unique (b n : Z) :
  0 <= b -> 0 <= n -> Z.testbit b n = true ->
  (forall i, n < i -> Z.testbit b i = false) -> Z.log2 b = n.
Proof.
  intros Hb Hn Hbit Habove. apply Z.log2_unique; [exact Hn|]. split.
  - destruct (Z.lt_ge_cases b (2 ^ n)) as [Hlt|Hge]; [|exact Hge].
    rewrite (proj1 (below_pow2_bits b n Hb Hn) Hlt n) in Hbit by lia. discriminate.
  - apply below_pow2_bits; [exact Hb | lia|]. intros i Hi. apply Habove. lia.
Qed.
End BitsetFacts.

Module MIDIChannels.
Import MIDI MIDISpec MIDIShape MIDIFacts BitsetFacts.
Local Open Scope Z_scope.

Section StoreShape.
Context {A : Type}.

Lemma store_length (l l' : list A) (i : nat) (x : A) :
  store l i x = Some l' -> List.length l' = List.length l.
Proof.
  revert i l'. induction l as [|z l IH]; intros [|i] l' Hs; cbn in *; try discriminate.
  - injection Hs as <-. reflexivity.
  - destruct (store l i x) as [t|] eqn:E; cbn in Hs; [|discriminate].
    injection Hs as <-. cbn. f_equal. apply (IH i). exact E.
Qed.

Lemma store_Forall (P : A -> Prop) (l l' : list A) (i : nat) (x : A) :
  store l i x = Some l' -> Forall P l -> P x -> Forall P l'.
Proof.
  revert i l'. induction l as [|z l IH]; intros [|i] l' Hs Hl Hx; cbn in *; try discriminate.
  - injection Hs as <-. inversion Hl; subst. constructor; assumption.
  - destruct (store l i x) as [t|] eqn:E; cbn in Hs; [|discriminate].
    injection Hs as <-. inversion Hl; subst. constructor; [assumption|].
    apply (IH i); assumption.
Qed.

Lemma store_none (l : list A) (i : nat) (x : A) :
  store l i x = None <-> (List.length l <= i)%nat.
Proof.
  revert i. induction l as [|z l IH]; intros [|i]; cbn [store List.length].
  - split; [lia | reflexivity].
  - split; [lia | reflexivity].
  - split; [discriminate | lia].
  - specialize (IH i). destruct (store l i x); cbn [option_map].
    + split; [discriminate|]. intros Hle. assert (Some l0 = None) by (apply IH; lia). discriminate.
    + split; [|reflexivity]. intros _. assert (List.length l <= i)%nat by (apply IH; reflexivity). lia.
Qed.
End StoreShape.

Section Handlers.
Context {F : Type} `{Scalar F}.
Local Abbreviation t := (@MIDI.t F).
Local Abbreviation Channel := (@MIDI.Channel F).

Lemma highest_below_top (n : nat) (notes : bitset) :
  0 <= notes < 2 ^ Z.of_nat n ->
  highest_below n notes
  = if none notes then of_Z 0 else note_to_frequency (Z.log2 notes).
Proof.
  induction n as [|n IH]; intros Hn.
  - cbn [highest_below]. change (2 ^ Z.of_nat 0) with 1 in Hn.
    replace notes with 0 by lia. reflexivity.
  - cbn [highest_below]. unfold test.
    pose proof (highest_bit notes (Z.of_nat n) ltac:(lia)) as Hb.
    replace (Z.of_nat n + 1) with (Z.of_nat (S n)) in Hb by lia. specialize (Hb Hn).
    destruct (Z.testbit notes (Z.of_nat n)).
    + destruct Hb as [-> Hne]. unfold none.
      replace (notes =? 0) with false by (symmetry; apply Z.eqb_neq; exact Hne).
      reflexivity.
    + apply IH. lia.
Qed.

Lemma highest_top (notes : bitset) :
  0 <= notes < 2 ^ 128 ->
  highest_note_frequency notes
  = if none notes then of_Z 0 else note_to_frequency (Z.log2 notes).
Proof. intros Hn. exact (highest_below_top 128 notes Hn). Qed.

(** X23.  For a note set that fits its 128 bits, the loop of
    [highest_note_frequency] returns the frequency of the highest note
    held, the position of the top bit, and 0 when no note is held; pressing
    or releasing a note below the highest one does not change the result. *)
Theorem highest_note_is_top_bit :
  forall notes : bitset,
    0 <= notes < 2 ^ 128 ->
    highest_note_frequency notes
    = (if none notes then of_Z 0 else note_to_frequency (Z.log2 notes))
    /\ (forall note, 0 <= note < Z.log2 notes ->
          highest_note_frequency (Z.setbit notes note) = highest_note_frequency notes
          /\ highest_note_frequency (Z.clearbit notes note) = highest_note_frequency notes).
Proof.
  intros notes Hn. split; [apply highest_top; exact Hn|].
  intros note Hnote.
  assert (Hpos : 0 < notes).
  { destruct (Z.eq_dec notes 0) as [->|]; [cbn in Hnote; lia | lia]. }
  assert (Hlog : Z.log2 notes < 128) by (apply Z.log2_lt_pow2; lia).
  destruct (setbit_range notes note Hn ltac:(lia)) as [Hs Hsne].
  destruct (clearbit_range notes note Hn ltac:(lia)) as [Hc _].
  pose proof (Z.bit_log2 notes Hpos) as Hbit.
  assert (Habove : forall i, Z.log2 notes < i -> Z.testbit notes i = false)
    by (intros i Hi; apply Z.bits_above_log2; lia).
  assert (Hls : Z.log2 (Z.setbit notes note) = Z.log2 notes).
  { apply top_bit_unique; [lia | lia | rewrite Z.setbit_neq by lia; exact Hbit|].
    intros i Hi. rewrite Z.setbit_neq by lia. apply Habove. exact Hi. }
  assert (Hlc : Z.log2 (Z.clearbit notes note) = Z.log2 notes).
  { apply top_bit_unique; [lia | lia | rewrite Z.clearbit_neq by lia; exact Hbit|].
    intros i Hi. rewrite Z.clearbit_neq by lia. apply Habove. exact Hi. }
  assert (Hcne : Z.clearbit notes note <> 0).
  { intros Hz. rewrite Hz in Hlc. cbn in Hlc. lia. }
  rewrite (highest_top _ Hs), (highest_top _ Hc), (highest_top _ Hn), Hls, Hlc.
  unfold none.
  replace (Z.setbit notes note =? 0) with false by (symmetry; apply Z.eqb_neq; exact Hsne).
  replace (Z.clearbit notes note =? 0) with false by (symmetry; apply Z.eqb_neq; exact Hcne).
  replace (notes =? 0) with false by (symmetry; apply Z.eqb_neq; lia).
  split; reflexivity.
Qed.

Lemma note_off_sounding (ch ch' : Channel) (note : Z) :
  sounding ch -> note_off ch note = Some ch' -> sounding ch'.
Proof.
  intros [Hr Hs]. unfold note_off, reset.
  destruct ((0 <=? note) && (note <? 128))%bool eqn:Ep; [|discriminate].
  apply andb_prop in Ep. destruct Ep as [Ep _]. apply Z.leb_le in Ep.
  destruct (clearbit_range (notes ch) note Hr Ep) as [Hr' Hne].
  intros Hch. injection Hch as <-.
  destruct (none (Z.clearbit (notes ch) note)) eqn:En; unfold sounding; cbn [notes gate frequency].
  - split; [exact Hr'|]. intros Hcon. unfold none in En. apply Z.eqb_eq in En. contradiction.
  - split; [exact Hr'|]. intros Hnz. split; [apply Hs, Hne, Hnz|].
    rewrite (highest_top _ Hr'), En. reflexivity.
Qed.

Lemma note_on_sounding (ch ch' : Channel) (note vel : Z) :
  sounding ch -> note_on ch note vel = Some ch' -> sounding ch'.
Proof.
  intros Hs. unfold note_on. destruct (vel =? 0); [apply note_off_sounding; exact Hs|].
  unfold set. destruct ((0 <=? note) && (note <? 128))%bool eqn:Ep; [|discriminate].
  apply andb_prop in Ep. destruct Ep as [Ep1 Ep2].
  apply Z.leb_le in Ep1. apply Z.ltb_lt in Ep2.
  destruct (setbit_range (notes ch) note (proj1 Hs) (conj Ep1 Ep2)) as [Hr' Hne].
  intros Hch. injection Hch as <-. unfold sounding. cbn [notes gate frequency].
  split; [exact Hr'|]. intros _. split; [reflexivity|].
  rewrite (highest_top _ Hr'). unfold none.
  replace (Z.setbit (notes ch) note =? 0) with false by (symmetry; apply Z.eqb_neq; exact Hne).
  reflexivity.
Qed.

Lemma keypress_sounding (ch : Channel) (note vel : Z) :
  sounding ch -> sounding (keypress ch note vel).
Proof. intros Hs. unfold keypress. destruct (feqb _ _); exact Hs. Qed.

Lemma controller_sounding (ch ch' : Channel) (param value : Z) :
  sounding ch -> controller ch param value = Some ch' -> sounding ch'.
Proof.
  intros Hs. unfold controller. destruct (param <? 0); [discriminate|].
  destruct (store _ _ _); [|discriminate]. intros Hch. injection Hch as <-. exact Hs.
Qed.

Lemma on_channel_Forall (P : Channel -> Prop) (m m' : t) (c : Z) (f : Channel -> option Channel) :
  (forall ch ch', P ch -> f ch = Some ch' -> P ch') ->
  Forall P (channels m) -> on_channel m c f = Some m' -> Forall P (channels m').
Proof.
  intros Hf Hm. unfold on_channel. destruct (c <? 0); [discriminate|].
  destruct (nth_error (channels m) (Z.to_nat c)) as [ch|] eqn:Ec; [|discriminate].
  destruct (f ch) as [ch'|] eqn:Ef; [|discriminate].
  destruct (store (channels m) (Z.to_nat c) ch') as [cs|] eqn:Es; [|discriminate].
  cbn [option_map]. intros Hm'. injection Hm' as <-. cbn [channels].
  apply (store_Forall P _ _ _ _ Es Hm). apply (Hf ch); [|exact Ef].
  apply (proj1 (Forall_forall P (channels m)) Hm). eapply nth_error_In. exact Ec.
Qed.

Lemma process_event_sounding (m m' : t) (event : snd_seq_event_t) :
  Forall sounding (channels m) -> process_event m event = Some m' ->
  Forall sounding (channels m').
Proof.
  intros Hm. destruct event; cbn [process_event];
    try (apply on_channel_Forall; [|exact Hm]; intros ch ch' Hs Hch).
  - eapply note_on_sounding; eassumption.
  - eapply note_off_sounding; eassumption.
  - injection Hch as <-. apply keypress_sounding. exact Hs.
  - injection Hch as <-. exact Hs.
  - injection Hch as <-. exact Hs.
  - eapply controller_sounding; eassumption.
  - intros Hm'. injection Hm' as <-. exact Hm.
Qed.

(** X24.  From the constructor on, whatever events arrive, every channel's
    note set fits its 128 bits, and a channel on which a note is held has
    its gate at 1 and its frequency at that of the highest note held:
    key pressure, channel pressure, pitch bend and controller events never
    disturb it. *)
Theorem held_note_sounds :
  forall (storage : list Channel) (pending : list snd_seq_event_t) (m : t) (ch : Channel),
    update (ctor storage) pending = Some m -> In ch (channels m) ->
    0 <= notes ch < 2 ^ 128
    /\ (notes ch <> 0 ->
        gate ch = of_Z 1
        /\ frequency ch = note_to_frequency (Z.log2 (notes ch))
        /\ frequency ch = highest_note_frequency (notes ch)).
Proof.
  intros storage pending m ch Hrun Hin.
  assert (Hall : Forall sounding (channels m)).
  { assert (H0 : Forall sounding (channels (ctor storage))).
    { unfold ctor. cbn [channels]. apply Forall_forall. intros c Hc.
      apply in_map_iff in Hc. destruct Hc as (c0 & <- & _).
      unfold sounding, fresh_channel. cbn [notes]. split; [lia|]. intros Hcon. contradiction. }
    revert Hrun H0. generalize (ctor storage). clear storage.
    induction pending as [|event rest IH]; intros m0 Hrun H0; cbn [update] in Hrun.
    - injection Hrun as <-. exact H0.
    - destruct (process_event m0 event) as [m1|] eqn:E1; [|discriminate].
      apply (IH m1 Hrun). eapply process_event_sounding; eassumption. }
  destruct (proj1 (Forall_forall _ _) Hall ch Hin) as [Hr Hs].
  split; [exact Hr|]. intros Hne. destruct (Hs Hne) as [Hg Hf].
  split; [exact Hg|]. split; [exact Hf|].
  rewrite (highest_top _ Hr). unfold none.
  replace (notes ch =? 0) with false by (symmetry; apply Z.eqb_neq; exact Hne).
  exact Hf.
Qed.

(** X25.  An event changes at most the channel it addresses: the number of
    channels stays, and every other channel is left as it was. *)
Theorem other_channels_untouched :
  forall (m m' : t) (event : snd_seq_event_t),
    process_event m event = Some m' ->
    List.length (channels m') = List.length (channels m)
    /\ forall c, event_channel event <> Some c -> channel_at m' c = channel_at m c.
Proof.
  assert (Hon : forall (m m' : t) c f,
            on_channel m c f = Some m' ->
            List.length (channels m') = List.length (channels m)
            /\ forall c0, Some c <> Some c0 -> channel_at m' c0 = channel_at m c0).
  { intros m m' c f. unfold on_channel. destruct (c <? 0) eqn:Ec; [discriminate|].
    apply Z.ltb_ge in Ec.
    destruct (nth_error (channels m) (Z.to_nat c)) as [ch|]; [|discriminate].
    destruct (f ch) as [ch'|]; [|discriminate].
    destruct (store (channels m) (Z.to_nat c) ch') as [cs|] eqn:Es; [|discriminate].
    cbn [option_map]. intros Hm'. injection Hm' as <-. cbn [channels].
    split; [apply (store_length _ _ _ _ Es)|].
    intros c0 Hne. unfold channel_at. cbn [channels].
    destruct (c0 <? 0) eqn:Ec0; [reflexivity|]. apply Z.ltb_ge in Ec0.
    apply (store_other _ _ _ _ _ Es). intros Heq. apply Hne. f_equal. lia. }
  intros m m' event. destruct event; cbn [process_event event_channel]; try apply Hon.
  intros Hm'. injection Hm' as <-. split; reflexivity.
Qed.
End Handlers.
End MIDIChannels.

Module MIDIEvents.
Import MIDI MIDISpec MIDIShape MIDIFacts MIDIChannels.
Local Open Scope Z_scope.

Section Events.
Context {F : Type} `{Scalar F}.
Local Abbreviation t := (@MIDI.t F).
Local Abbreviation Channel := (@MIDI.Channel F).

Lemma note_off_fits (ch : Channel) (note : Z) :
  (note_off ch note = None <-> below 128 note = false)
  /\ forall ch', note_off ch note = Some ch' -> parameter ch' = parameter ch.
Proof.
  unfold note_off, reset, below. destruct ((0 <=? note) && (note <? 128))%bool.
  - split; [split; discriminate|]. intros ch' Hch. injection Hch as <-.
    destruct (none _); reflexivity.
  - split; [split; reflexivity | discriminate].
Qed.

Lemma note_on_fits (ch : Channel) (note vel : Z) :
  (note_on ch note vel = None <-> below 128 note = false)
  /\ forall ch', note_on ch note vel = Some ch' -> parameter ch' = parameter ch.
Proof.
  unfold note_on. destruct (vel =? 0); [apply note_off_fits|].
  unfold set, below. destruct ((0 <=? note) && (note <? 128))%bool.
  - split; [split; discriminate|]. intros ch' Hch. injection Hch as <-. reflexivity.
  - split; [split; reflexivity | discriminate].
Qed.

Lemma controller_fits (ch : Channel) (param value : Z) :
  List.length (parameter ch) = 128%nat ->
  (controller ch param value = None <-> below 128 param = false)
  /\ forall ch', controller ch param value = Some ch' ->
       List.length (parameter ch') = 128%nat.
Proof.
  intros Hlen. unfold controller, below. destruct (param <? 0) eqn:Ep.
  - apply Z.ltb_lt in Ep. replace (0 <=? param) with false by (symmetry; apply Z.leb_gt; lia).
    split; [split; reflexivity | discriminate].
  - apply Z.ltb_ge in Ep. replace (0 <=? param) with true by (symmetry; apply Z.leb_le; lia).
    cbn [andb].
    destruct (store (parameter ch) (Z.to_nat param) (of_Z value / of_Z 127)%flt) as [ps|] eqn:Es.
    + split.
      * split; [discriminate|]. intros Hp. apply Z.ltb_ge in Hp.
        assert (Hnone : store (parameter ch) (Z.to_nat param) (of_Z value / of_Z 127)%flt = None)
          by (apply store_none; lia).
        congruence.
      * intros ch' Hch. injection Hch as <-. cbn [parameter].
        rewrite (store_length _ _ _ _ Es). exact Hlen.
    + split; [|discriminate]. split; [|reflexivity]. intros _.
      apply store_none in Es. apply Z.ltb_ge. lia.
Qed.

Lemma on_channel_fits (m : t) (c : Z) (f : Channel -> option Channel) (ok : bool) :
  shaped m ->
  (forall ch, List.length (parameter ch) = 128%nat ->
     (f ch = None <-> ok = false)
     /\ forall ch', f ch = Some ch' -> List.length (parameter ch') = 128%nat) ->
  (on_channel m c f = None <-> below 16 c && ok = false)
  /\ forall m', on_channel m c f = Some m' -> shaped m'.
Proof.
  intros [Hlen Hpar] Hf. unfold on_channel, below. destruct (c <? 0) eqn:Ec.
  - apply Z.ltb_lt in Ec. replace (0 <=? c) with false by (symmetry; apply Z.leb_gt; lia).
    split; [split; reflexivity | discriminate].
  - apply Z.ltb_ge in Ec. replace (0 <=? c) with true by (symmetry; apply Z.leb_le; lia).
    cbn [andb].
    destruct (nth_error (channels m) (Z.to_nat c)) as [ch|] eqn:En.
    + assert (Hc : (c <? 16) = true).
      { apply Z.ltb_lt. assert (Z.to_nat c < List.length (channels m))%nat; [|lia].
        apply nth_error_Some. congruence. }
      rewrite Hc. cbn [andb].
      assert (Hch : List.length (parameter ch) = 128%nat).
      { apply (proj1 (Forall_forall _ _) Hpar). eapply nth_error_In. exact En. }
      destruct (Hf ch Hch) as [Hnone Hsome].
      destruct (f ch) as [ch'|] eqn:Ef.
      * destruct (store_some (channels m) (Z.to_nat c) ch' ch En) as [cs Hcs].
        rewrite Hcs. cbn [option_map]. split.
        -- split; [discriminate|]. intros Hb. apply Hnone in Hb. discriminate.
        -- intros m' Hm'. injection Hm' as <-. split; cbn [channels].
           ++ rewrite (store_length _ _ _ _ Hcs). exact Hlen.
           ++ apply (store_Forall _ _ _ _ _ Hcs Hpar). apply Hsome. reflexivity.
      * split; [|discriminate]. split; [|reflexivity]. intros _.
        apply Hnone. reflexivity.
    + apply nth_error_None in En.
      replace (c <? 16) with false by (symmetry; apply Z.ltb_ge; lia).
      split; [split; reflexivity | discriminate].
Qed.

Lemma process_event_fits (m : t) (event : snd_seq_event_t) :
  shaped m ->
  (process_event m event = None <-> fits event = false)
  /\ forall m', process_event m event = Some m' -> shaped m'.
Proof.
  intros Hm. destruct event as [c n v|c n v|c n v|c v|c v|c p v|]; cbn [process_event fits].
  - apply (on_channel_fits m c _ (below 128 n) Hm). intros ch Hch.
    destruct (note_on_fits ch n v) as [Hnone Hpar]. split; [exact Hnone|].
    intros ch' Hch'. rewrite (Hpar ch' Hch'). exact Hch.
  - apply (on_channel_fits m c _ (below 128 n) Hm). intros ch Hch.
    destruct (note_off_fits ch n) as [Hnone Hpar]. split; [exact Hnone|].
    intros ch' Hch'. rewrite (Hpar ch' Hch'). exact Hch.
  - rewrite <- (andb_true_r (below 16 c)).
    apply (on_channel_fits m c _ true Hm). intros ch Hch. split; [split; discriminate|].
    intros ch' Hch'. injection Hch' as <-. unfold keypress. destruct (feqb _ _); exact Hch.
  - rewrite <- (andb_true_r (below 16 c)).
    apply (on_channel_fits m c _ true Hm). intros ch Hch. split; [split; discriminate|].
    intros ch' Hch'. injection Hch' as <-. exact Hch.
  - rewrite <- (andb_true_r (below 16 c)).
    apply (on_channel_fits m c _ true Hm). intros ch Hch. split; [split; discriminate|].
    intros ch' Hch'. injection Hch' as <-. exact Hch.
  - apply (on_channel_fits m c _ (below 128 p) Hm). intros ch Hch.
    destruct (controller_fits ch p v Hch) as [Hnone Hpar]. split; assumption.
  - split; [split; discriminate|]. intros m' Hm'. injection Hm' as <-. exact Hm.
Qed.

(** X26.  On an adapter with its sixteen channels of 128 controller values
    each, a batch of pending events is processed to the end exactly when
    every event fits: channel below 16, note of a note-on or note-off below
    128, controller number below 128.  The first event that does not fit
    indexes outside an array or makes the note set throw; and the adapter
    keeps its shape through every event that fits. *)
Theorem events_that_fit_are_processed :
  forall (pending : list snd_seq_event_t) (m : t),
    shaped m ->
    (update m pending = None <-> forallb fits pending = false)
    /\ forall m', update m pending = Some m' -> shaped m'.
Proof.
  induction pending as [|event rest IH]; intros m Hm; cbn [update forallb].
  - split; [split; discriminate|]. intros m' Hm'. injection Hm' as <-. exact Hm.
  - destruct (process_event_fits m event Hm) as [Hnone Hshape].
    destruct (process_event m event) as [m1|] eqn:E1.
    + assert (Hfit : fits event = true).
      { destruct (fits event); [reflexivity|].
        assert (Some m1 = None) by (apply Hnone; reflexivity). discriminate. }
      rewrite Hfit. cbn [andb]. apply IH. apply Hshape. reflexivity.
    + rewrite (proj1 Hnone eq_refl). cbn [andb]. split; [split; reflexivity | discriminate].
Qed.

(** X27.  A controller event that is processed stores [value / 127] at the
    controller's number on its channel and changes nothing else there:
    the other controller values, the frequency, the gate, both velocities,
    the aftertouch, the pitch bend and the notes held are as before. *)
Theorem controller_value_is_stored :
  forall (m m' : t) (channel param value : Z),
    process_event m (SND_SEQ_EVENT_CONTROLLER channel param value) = Some m' ->
    exists ch ch',
      channel_at m channel = Some ch
      /\ channel_at m' channel = Some ch'
      /\ nth_error (parameter ch') (Z.to_nat param) = Some (of_Z value / of_Z 127)%flt
      /\ (forall q, q <> Z.to_nat param ->
            nth_error (parameter ch') q = nth_error (parameter ch) q)
      /\ frequency ch' = frequency ch /\ gate ch' = gate ch
      /\ velocity ch' = velocity ch /\ release_velocity ch' = release_velocity ch
      /\ aftertouch ch' = aftertouch ch /\ pitch_bend ch' = pitch_bend ch
      /\ notes ch' = notes ch.
Proof.
  intros m m' c p v. cbn [process_event]. unfold on_channel, channel_at.
  destruct (c <? 0); [discriminate|].
  destruct (nth_error (channels m) (Z.to_nat c)) as [ch|] eqn:En; [|discriminate].
  unfold controller. destruct (p <? 0); [discriminate|].
  destruct (store (parameter ch) (Z.to_nat p) (of_Z v / of_Z 127)%flt) as [ps|] eqn:Ep;
    [|discriminate].
  destruct (store (channels m) (Z.to_nat c) _) as [cs|] eqn:Es; [|discriminate].
  cbn [option_map]. intros Hm'. injection Hm' as <-. cbn [channels].
  eexists ch, _. split; [reflexivity|]. split; [apply (store_same _ _ _ _ Es)|].
  cbn [parameter frequency gate velocity release_velocity aftertouch pitch_bend notes].
  split; [apply (store_same _ _ _ _ Ep)|].
  split; [intros q Hq; apply (store_other _ _ _ _ _ Ep); congruence|].
  repeat split.
Qed.
End Events.
End MIDIEvents.

Module MIDIRoundTrip.
Import MIDI MIDISpec MIDIShape MIDIFacts BitsetFacts MIDIChannels.
Local Open Scope Z_scope.

Lemma clearbit_setbit (a n : Z) :
  0 <= n -> Z.testbit a n = false -> Z.clearbit (Z.setbit a n) n = a.
Proof.
  intros Hn Hbit. apply Z.bits_inj'. intros i Hi.
  destruct (Z.eq_dec n i) as [<-|Hne].
  - rewrite Z.clearbit_eq. symmetry. exact Hbit.
  - rewrite Z.clearbit_neq, Z.setbit_neq by lia. reflexivity.
Qed.

Section RoundTrip.
Context {F : Type} `{Scalar F}.
Local Abbreviation Channel := (@MIDI.Channel F).

(** X28.  Pressing a note that is not held and releasing it again leaves
    the set of held notes as it was.  If other notes are held meanwhile,
    the whole channel is back as it was: gate, frequency and both
    velocities included.  If none is, the channel is left with its gate at
    0, with the velocity of the press as its velocity and its release
    velocity, and with the frequency of the note just released. *)
Theorem press_and_release :
  forall (ch ch1 ch2 : Channel) (note vel : Z),
    sounding ch -> Z.testbit (notes ch) note = false -> vel <> 0 ->
    note_on ch note vel = Some ch1 -> note_off ch1 note = Some ch2 ->
    notes ch2 = notes ch
    /\ (notes ch <> 0 -> ch2 = ch)
    /\ (notes ch = 0 ->
        gate ch2 = of_Z 0
        /\ velocity ch2 = (of_Z vel / of_Z 127)%flt
        /\ release_velocity ch2 = (of_Z vel / of_Z 127)%flt
        /\ frequency ch2 = note_to_frequency note).
Proof.
  intros ch ch1 ch2 note vel [Hr Hs] Hbit Hvel. unfold note_on.
  replace (vel =? 0) with false by (symmetry; apply Z.eqb_neq; exact Hvel).
  unfold set, note_off, reset.
  destruct ((0 <=? note) && (note <? 128))%bool eqn:Ep; [|discriminate].
  pose proof Ep as Ep'. apply andb_prop in Ep'. destruct Ep' as [Ep1 Ep2].
  apply Z.leb_le in Ep1. apply Z.ltb_lt in Ep2.
  intros H1. injection H1 as <-. cbn [notes velocity release_velocity gate frequency
                                       aftertouch pitch_bend parameter].
  rewrite (clearbit_setbit _ _ Ep1 Hbit).
  intros H2. injection H2 as <-. unfold none.
  destruct (Z.eq_dec (notes ch) 0) as [Hz|Hnz].
  - rewrite Hz. cbn [Z.eqb notes gate velocity release_velocity frequency].
    split; [reflexivity|]. split; [intros Hcon; contradiction|]. intros _.
    repeat split.
    assert (Hone : 0 <= Z.setbit 0 note < 2 ^ 128)
      by (apply setbit_range; lia).
    rewrite (highest_top _ Hone). unfold none.
    replace (Z.setbit 0 note =? 0) with false
      by (symmetry; apply Z.eqb_neq; apply (setbit_range 0 note); lia).
    f_equal. apply top_bit_unique; [lia | lia | apply Z.setbit_eq; lia|].
    intros i Hi. rewrite Z.setbit_neq by lia. apply Z.testbit_0_l.
  - replace (notes ch =? 0) with false by (symmetry; apply Z.eqb_neq; exact Hnz).
    cbn [notes]. split; [reflexivity|]. split; [|intros Hcon; contradiction].
    intros _. destruct (Hs Hnz) as [Hg Hf]. destruct ch as [f v rv g a pb ps ns].
    cbn [notes gate frequency velocity release_velocity aftertouch pitch_bend parameter] in *.
    rewrite (highest_top _ Hr). unfold none.
    replace (ns =? 0) with false by (symmetry; apply Z.eqb_neq; exact Hnz).
    rewrite <- Hf, <- Hg. reflexivity.
Qed.
End RoundTrip.
End MIDIRoundTrip.

(** ** Instances of the further properties *)

Module MoreInstances.
Import RealScalar RealMath ScalarFacts RealFacts.
Import MIDISpec DelaySpec SequencerSpec EnvelopeSpec MixerSpec Fixtures.
Local Open Scope R_scope.

(** Two blocks of 16 and 24 bytes on the two speakers. *)
Lemma callback_blocks_witness :
  Audio.callback Mixer.update {| Registry.modules := [0%nat; 1%nat] |} (16 + 24) two_speakers
  = (fst (Audio.callback Mixer.update {| Registry.modules := [0%nat; 1%nat] |} 24
            (fst (Audio.callback Mixer.update {| Registry.modules := [0%nat; 1%nat] |} 16
                    two_speakers))),
     snd (Audio.callback Mixer.update {| Registry.modules := [0%nat; 1%nat] |} 16 two_speakers)
     ++ snd (Audio.callback Mixer.update {| Registry.modules := [0%nat; 1%nat] |} 24
               (fst (Audio.callback Mixer.update {| Registry.modules := [0%nat; 1%nat] |} 16
                       two_speakers)))).
Proof.
  apply (SchedulerFacts.callback_blocks (@Mixer.heap R) Mixer.update
           {| Registry.modules := [0%nat; 1%nat] |} two_speakers 16 24);
    [lia | lia | reflexivity].
Defined.



(** The envelope of the example program through a gate that rises, falls
    and rises again. *)
Lemma amplitude_in_unit_range_witness :
  0 <= Envelope.amplitude_out (EnvelopeRun.run example_envelope [1; 0; 1]) <= 1.
Proof.
  apply (EnvelopeShape.amplitude_in_unit_range [1; 0; 1] example_envelope);
    cbn [example_envelope Envelope.attack Envelope.decay Envelope.release
         Envelope.amplitude_out]; lra.
Defined.






(** The filter of the example program: a cutoff of 1000 Hz. *)
Lemma coefficient_range_witness :
  0 <= VCF.coefficient (VCF.ctor 1000 1) <= 1.
Proof.
  refine (proj1 (VCFFacts.coefficient_range (VCF.ctor 1000 1) _)).
  cbn [VCF.ctor VCF.cutoff]. lra.
Defined.





(** The four notes of the example program under a clock held for three
    ticks. *)
Lemma held_clock_steps_once_witness :
  exists s',
    Sequencer.run four_notes [1; 1; 1] = Some s' /\ Sequencer.index s' = 0%Z.
Proof.
  assert (Hhigh : high (1 : R) = true).
  { rewrite SequencerReal.high_real. destruct (Rlt_dec 0 1); [reflexivity | lra]. }
  destruct (SequencerNotes.held_clock_steps_once [1; 1; 1] four_notes) as [Hheld _].
  - unfold in_range, size, size_max. cbn. lia.
  - apply SequencerReal.to_bool_zero.
  - destruct Hheld as (s' & Hrun & Hi & _).
    + discriminate.
    + repeat constructor; exact Hhigh.
    + exists s'. split; [exact Hrun|]. rewrite Hi. reflexivity.
Defined.

(** The chord of the notes 60 and 69. *)
Lemma highest_note_is_top_bit_witness :
  @MIDI.highest_note_frequency R _ (Z.setbit (Z.setbit 0 60) 69)
  = MIDI.note_to_frequency 69.
Proof.
  refine (proj1 (MIDIChannels.highest_note_is_top_bit (Z.setbit (Z.setbit 0 60) 69) _)).
  vm_compute. split; [discriminate | reflexivity].
Defined.

(** A note-on followed by a channel pressure on channel 0. *)
Lemma held_note_sounds_witness :
  exists m ch,
    MIDI.update fresh_midi
      [MIDI.SND_SEQ_EVENT_NOTEON 0 60 100; MIDI.SND_SEQ_EVENT_CHANPRESS 0 5] = Some m
    /\ MIDI.channel_at m 0 = Some ch
    /\ MIDI.gate ch = 1.
Proof.
  eexists. eexists. split; [reflexivity|]. split; [reflexivity|].
  refine (proj1 (proj2 (MIDIChannels.held_note_sounds (repeat blank_channel 16)
                          [MIDI.SND_SEQ_EVENT_NOTEON 0 60 100;
                           MIDI.SND_SEQ_EVENT_CHANPRESS 0 5] _ _ eq_refl _) _)).
  - left. reflexivity.
  - cbn. discriminate.
Defined.

Lemma other_channels_untouched_witness :
  exists m',
    MIDI.process_event fresh_midi (MIDI.SND_SEQ_EVENT_NOTEON 0 60 100) = Some m'
    /\ MIDI.channel_at m' 1 = MIDI.channel_at fresh_midi 1.
Proof.
  eexists. split; [reflexivity|].
  refine (proj2 (MIDIChannels.other_channels_untouched fresh_midi _
                   (MIDI.SND_SEQ_EVENT_NOTEON 0 60 100) eq_refl) 1%Z _).
  discriminate.
Defined.

(** A note-on for channel 16 of the sixteen channels 0 to 15. *)
Lemma events_that_fit_are_processed_witness :
  MIDI.update fresh_midi
    [MIDI.SND_SEQ_EVENT_NOTEON 0 60 100; MIDI.SND_SEQ_EVENT_NOTEON 16 60 100] = None.
Proof.
  refine (proj2 (proj1 (MIDIEvents.events_that_fit_are_processed
                          [MIDI.SND_SEQ_EVENT_NOTEON 0 60 100;
                           MIDI.SND_SEQ_EVENT_NOTEON 16 60 100] fresh_midi _)) _).
  - split; [reflexivity | repeat constructor].
  - reflexivity.
Defined.

(** The volume controller, number 7, on channel 0. *)
Lemma controller_value_is_stored_witness :
  exists m' ch',
    MIDI.process_event fresh_midi (MIDI.SND_SEQ_EVENT_CONTROLLER 0 7 100) = Some m'
    /\ MIDI.channel_at m' 0 = Some ch'
    /\ nth_error (MIDI.parameter ch') 7 = Some (100 / 127).
Proof.
  eexists. eexists. split; [reflexivity|]. split; [reflexivity|].
  destruct (MIDIEvents.controller_value_is_stored fresh_midi _ 0 7 100 eq_refl)
    as (ch & ch' & _ & Hc' & Hp & _).
  injection Hc' as <-. exact Hp.
Defined.
(** Note 60 pressed and released while note 69 is held. *)
Lemma press_and_release_witness :
  exists ch1 ch2,
    MIDI.note_on channel_a440 60 100 = Some ch1
    /\ MIDI.note_off ch1 60 = Some ch2
    /\ ch2 = channel_a440.
Proof.
  eexists. eexists. split; [reflexivity|]. split; [reflexivity|].
  refine (proj1 (proj2 (MIDIRoundTrip.press_and_release channel_a440 _ _ 60 100
                          _ _ _ eq_refl eq_refl)) _).
  - split; [vm_compute; split; [discriminate | reflexivity]|].
    intros _. split; [reflexivity|].
    change (Z.log2 (MIDI.notes channel_a440)) with 69%Z.
    rewrite MIDIReal.note_to_frequency_69. reflexivity.
  - reflexivity.
  - discriminate.
  - cbn. discriminate.
Defined.
End MoreInstances.
